(** * Tukey fence outlier test: a shallow embedding of [Statistics/Tukey.py]

    The development follows the Python class [Tukey] function by function.

    - Data.  The elements of the data set are exact numbers, Python [int]
      and [fractions.Fraction], modelled by rationals ([Q]); two
      representations of one rational are two objects that compare equal
      (as [2] and [Fraction(2, 1)] do).  [Q3 - Q1] is exact on them.
    - Fences.  The literal [1.5] is a binary64 float, so [IQR * 1.5],
      [Q1 - ...] and [Q3 + ...] are float operations: the exact operand is
      first converted to a float (correctly rounded, [OverflowError] when it
      is too large), then the IEEE operation rounds again and may overflow
      to an infinity.  Floats are the [spec_float] of the standard library
      at precision 53 and maximal exponent 1024.  Python compares an exact
      number with a float by their exact values.
    - Objects.  A Python list is a mutable object: the heap is a sequence of
      list objects and a reference is the index of one.  [p_list.sort()]
      overwrites the caller's object, the slices are new objects, and in the
      one-element branch the result's [non_outliers] IS the caller's object.
    - Exceptions.  A computation returns [Ok v] or [Raise e]; the heap
      survives a raise.  Indexing a list out of range raises [IndexError].
    - [list.sort] is a stable ascending sort that compares with [<] only.
      It is modelled by the stable insertion sort [list_sort]; by
      [stable_sort_unique] every sort that returns a sorted list and keeps
      the order of equal elements returns the same list. *)

From Stdlib Require Import QArith Lqa Lia ZifyNat SpecFloat.
From stdpp Require Import base list sorting.

Local Open Scope Q_scope.

(** ** Exact numbers *)

(** Python's [a < b] and [a > b] on exact numbers; [Qltb] decides [Qlt]
    (lemma [Qltb_lt]). *)
Definition Qltb (a b : Q) : bool :=
  (Qnum a * QDen b <? Qnum b * QDen a)%Z.

Definition Qgtb (a b : Q) : bool := Qltb b a.

(** ** Exceptions *)

Inductive exn : Type :=
| IndexError     (* list index out of range *)
| OverflowError  (* int too large to convert to float *)
| InvalidRef.    (* a reference to no object: no Python program builds one *)

Inductive outcome (A : Type) : Type :=
| Ok (a : A)
| Raise (e : exn).
Arguments Ok {A} a.
Arguments Raise {A} e.

#[global] Instance outcome_ret : MRet outcome := λ A a, Ok a.
#[global] Instance outcome_bind : MBind outcome := λ A B f m,
  match m with
  | Ok a => f a
  | Raise e => Raise e
  end.

(** ** binary64 floats *)

Abbreviation float := spec_float.

Definition prec : Z := 53.
Definition emax : Z := 1024.

(** The float nearest to the exact number [q] (ties to even), an infinity
    when it is out of range: the quotient of the numerator by the
    denominator of [q] in lowest terms, rounded once.  This is what
    [float(n)] computes for an [int] and [n / d] for a [Fraction]. *)
Definition float_of_Q (q : Q) : float :=
  let r := Qred q in
  let quotient (sx : bool) (n : positive) :=
    let '(mz, ez, lz) :=
      SFdiv_core_binary prec emax (Zpos n) 0 (Zpos (Qden r)) 0 in
    binary_round_aux prec emax sx mz ez lz in
  match Qnum r with
  | Z0 => S754_zero false
  | Zpos n => quotient false n
  | Zneg n => quotient true n
  end.

(** The conversion Python applies to the exact operand of a mixed
    operation; it raises instead of returning an infinity. *)
Definition to_float (x : Q) : outcome float :=
  match float_of_Q x with
  | S754_infinity _ => Raise OverflowError
  | f => Ok f
  end.

(** The literal [1.5]. *)
Definition float_1_5 : float := S754_finite false 6755399441055744 (-52).

(** [x * f], [x - f] and [x + f] for an exact [x] and a float [f]. *)
Definition py_mul (x : Q) (f : float) : outcome float :=
  fx ← to_float x; Ok (SFmul prec emax fx f).

Definition py_sub (x : Q) (f : float) : outcome float :=
  fx ← to_float x; Ok (SFsub prec emax fx f).

Definition py_add (x : Q) (f : float) : outcome float :=
  fx ← to_float x; Ok (SFadd prec emax fx f).

(** The value of a float: an exact number or an infinity; NaN has none. *)
Inductive ext : Type :=
| NegInf
| Fin (q : Q)
| PosInf.

Definition F2Q (s : bool) (m : positive) (e : Z) : Q :=
  inject_Z (cond_Zopp s (Zpos m)) * 2 ^ e.

Definition fval (f : float) : option ext :=
  match f with
  | S754_nan => None
  | S754_infinity s => Some (if s then NegInf else PosInf)
  | S754_zero _ => Some (Fin 0)
  | S754_finite s m e => Some (Fin (F2Q s m e))
  end.

(** [x < f] and [x > f] for an exact [x] and a float [f]: Python compares
    the exact values; every comparison with NaN is false. *)
Definition py_lt (x : Q) (f : float) : bool :=
  match fval f with
  | Some NegInf => false
  | Some (Fin a) => Qltb x a
  | Some PosInf => true
  | None => false
  end.

Definition py_gt (x : Q) (f : float) : bool :=
  match fval f with
  | Some NegInf => true
  | Some (Fin a) => Qgtb x a
  | Some PosInf => false
  | None => false
  end.

(** ** Heap of list objects and the state-and-error monad *)

Abbreviation ref := nat.
Abbreviation heap := (list (list Q)).

Definition M (A : Type) : Type := heap → outcome A * heap.

#[global] Instance M_ret : MRet M := λ A a h, (Ok a, h).
#[global] Instance M_bind : MBind M := λ A B f m h,
  match m h with
  | (Ok a, h') => f a h'
  | (Raise e, h') => (Raise e, h')
  end.

(** Lift a heap-free computation. *)
Definition lift {A} (o : outcome A) : M A := λ h, (o, h).

(** Contents of the object behind a reference. *)
Definition read (r : ref) : M (list Q) := λ h,
  match h !! r with
  | Some l => (Ok l, h)
  | None => (Raise InvalidRef, h)
  end.

(** Overwrite the object behind a reference, in place. *)
Definition write (r : ref) (l : list Q) : M unit := λ h,
  (Ok tt, <[r := l]> h).

(** A new list object with the given contents, as built by [[]] or by a
    slice. *)
Definition alloc (l : list Q) : M ref := λ h,
  (Ok (length h), h ++ [l]).

(** [r.append(x)] *)
Definition append (r : ref) (x : Q) : M unit :=
  l ← read r; write r (l ++ [x]).

(** [for elem in l: body(elem)], over the elements [l] of the list. *)
Fixpoint for_each (l : list Q) (body : Q → M unit) : M unit :=
  match l with
  | [] => mret tt
  | elem :: rest => body elem;; for_each rest body
  end.

(** ** [list.sort()] *)

Fixpoint insert_sorted (x : Q) (l : list Q) : list Q :=
  match l with
  | [] => [x]
  | y :: t => if Qltb y x then y :: insert_sorted x t else x :: y :: t
  end.

Definition list_sort (l : list Q) : list Q := foldr insert_sorted [] l.

(** [r.sort()]: the object is sorted in place. *)
Definition sort (r : ref) : M unit :=
  l ← read r; write r (list_sort l).

(** ** The class [Tukey] *)

Module Tukey.

(** The dataclass [TukeyResult]; the two list fields hold references, the
    fences are floats or [None]. *)
Record TukeyResult : Type := mkTukeyResult {
  outliers : ref;
  non_outliers : ref;
  lower_fence : option float;
  upper_fence : option float
}.

(** [int((len(p_list))/2)] *)
Definition __medianIdx (p_list : list Q) : nat := length p_list / 2.

(** [p_list[Tukey.__medianIdx(p_list)]] *)
Definition __median (p_list : list Q) : outcome Q :=
  match p_list !! __medianIdx p_list with
  | Some v => Ok v
  | None => Raise IndexError
  end.

(** [Tukey.run(p_list)]; the argument is [None] or a reference to a list.
    The helpers [__medianIdx] and [__median] only read the list they are
    given: they take its contents.  The filter loop runs over the elements
    of [p_list]; its body appends to the two output lists only, which are
    objects other than [p_list]. *)
Definition run (p_list : option ref) : M (option TukeyResult) :=
  match p_list with
  | None => mret None
  | Some p =>
      l ← read p;
      if (0 <? length l)%nat then
        outliers ← alloc [];
        non_outliers ← alloc [];
        '(non_outliers, lower_fence, upper_fence) ←
          (if (length l =? 1)%nat then
             (* non_outliers = p_list *)
             mret (p, None, None)
           else
             sort p;;
             l ← read p;
             let split_idx := __medianIdx l in
             lower_list ← alloc (take split_idx l);
             upper_list ← alloc [];
             upper_list ←
               (if (length l mod 2 =? 0)%nat then alloc (drop split_idx l)
                else alloc (drop (split_idx + 1) l));
             lower ← read lower_list;
             Q1 ← lift (__median lower);
             upper ← read upper_list;
             Q3 ← lift (__median upper);
             let IQR := Q3 - Q1 in
             lower_fence ← lift (t ← py_mul IQR float_1_5; py_sub Q1 t);
             upper_fence ← lift (t ← py_mul IQR float_1_5; py_add Q3 t);
             for_each l (λ elem,
               if py_lt elem lower_fence || py_gt elem upper_fence
               then append outliers elem
               else append non_outliers elem);;
             mret (non_outliers, Some lower_fence, Some upper_fence));
        mret (Some (mkTukeyResult outliers non_outliers
                      lower_fence upper_fence))
      else mret None
  end.

End Tukey.

(** ** Vocabulary of the statements *)

Import Tukey.

(** A list of Python integers as data. *)
Definition zs (l : list Z) : list Q := map inject_Z l.

(** Order between an exact number and the value of a float. *)
Definition ext_lt (a b : ext) : Prop :=
  match a, b with
  | NegInf, NegInf => False
  | NegInf, _ => True
  | Fin x, Fin y => x < y
  | Fin _, PosInf => True
  | _, _ => False
  end.

Definition ext_le (a b : ext) : Prop :=
  match a, b with
  | NegInf, _ => True
  | Fin x, Fin y => x <= y
  | _, PosInf => True
  | _, _ => False
  end.

(** [x < f], [x > f], [f <= x] and [x <= f] as propositions; all four are
    false when [f] is NaN. *)
Definition lt_float (x : Q) (f : float) : Prop :=
  match fval f with Some v => ext_lt (Fin x) v | None => False end.

Definition gt_float (x : Q) (f : float) : Prop :=
  match fval f with Some v => ext_lt v (Fin x) | None => False end.

Definition float_le (f : float) (x : Q) : Prop :=
  match fval f with Some v => ext_le v (Fin x) | None => False end.

Definition le_float (x : Q) (f : float) : Prop :=
  match fval f with Some v => ext_le (Fin x) v | None => False end.

(** A zero or a finite number: what a conversion returns. *)
Definition is_finite (f : float) : bool :=
  match f with
  | S754_zero _ | S754_finite _ _ _ => true
  | _ => false
  end.

Definition is_nan (f : float) : bool :=
  match f with S754_nan => true | _ => false end.

(** The float [f] is the exact number [x], nothing rounded away. *)
Definition float_is (f : float) (x : Q) : Prop :=
  ∃ a, fval f = Some (Fin a) ∧ a == x.

(** The exact number [v] converts to a float without rounding. *)
Definition representable (v : Q) : Prop :=
  ∃ f, to_float v = Ok f ∧ float_is f v.

(** The test of the filter loop. *)
Definition is_outlier (lower_fence upper_fence : float) (elem : Q) : bool :=
  py_lt elem lower_fence || py_gt elem upper_fence.

Definition is_inlier (lower_fence upper_fence : float) (elem : Q) : bool :=
  negb (is_outlier lower_fence upper_fence elem).

(** Where the upper half starts in a list of [n] elements. *)
Definition upper_start (n : nat) : nat :=
  if (n mod 2 =? 0)%nat then (n / 2)%nat else (n / 2 + 1)%nat.

(** Positions of the two quartiles in the sorted list of [n] elements. *)
Definition q1_idx (n : nat) : nat := (n / 2 / 2)%nat.
Definition q3_idx (n : nat) : nat :=
  (upper_start n + (n - upper_start n) / 2)%nat.

(** The two quartiles the code takes from the sorted data [s]. *)
Definition quartiles (s : list Q) : option (Q * Q) :=
  Q1 ← s !! q1_idx (length s); Q3 ← s !! q3_idx (length s); Some (Q1, Q3).

(** The two fences as the code computes them from the quartiles. *)
Definition py_fences (Q1 Q3 : Q) : outcome (float * float) :=
  let IQR := Q3 - Q1 in
  lower_fence ← (t ← py_mul IQR float_1_5; py_sub Q1 t);
  upper_fence ← (t ← py_mul IQR float_1_5; py_add Q3 t);
  Ok (lower_fence, upper_fence).

(** The data [l] makes no conversion to float overflow: lists of fewer
    than two elements (no arithmetic), and lists whose [Q1], [Q3] and [IQR]
    all convert. *)
Definition fits_float (l : list Q) : bool :=
  match l with
  | [] | [_] => true
  | _ =>
      match quartiles (list_sort l) with
      | Some (Q1, Q3) =>
          match py_fences Q1 Q3 with Ok _ => true | Raise _ => false end
      | None => false
      end
  end.

(** The fences carry no rounding error: they are [Q1 - 1.5 * IQR] and
    [Q3 + 1.5 * IQR] exactly. *)
Definition exact_fences (Q1 Q3 : Q) (lo hi : float) : Prop :=
  float_is lo (Q1 - 1.5 * (Q3 - Q1)) ∧ float_is hi (Q3 + 1.5 * (Q3 - Q1)).

(** The upper half of the sorted data [s], as the code slices it. *)
Definition upper_half (s : list Q) : list Q :=
  if (length s mod 2 =? 0)%nat then drop (__medianIdx s) s
  else drop (__medianIdx s + 1) s.

(** The heap after the two allocations [outliers = []], [non_outliers = []]. *)
Definition with_outputs (h : heap) : heap := (h ++ [[]]) ++ [[]].

(** The heap once the data [s] is sorted in place and the three slice
    objects are built: where [run] is when it computes the fences. *)
Definition work_heap (h : heap) (p : ref) (s : list Q) : heap :=
  ((<[p := s]> (with_outputs h) ++ [take (__medianIdx s) s]) ++ [[]])
    ++ [upper_half s].

(** The heap when [run] returns from the full test on the sorted data [s]. *)
Definition final_heap (h : heap) (p : ref) (s outs nouts : list Q) : heap :=
  <[S (length h) := nouts]> (<[length h := outs]> (work_heap h p s)).

(** [run] on the list object [p] returns the record [res] and leaves the
    heap [h']; [outs] and [nouts] are the contents of the two lists the
    record refers to. *)
Definition returns (h : heap) (p : ref) (res : TukeyResult) (h' : heap)
    (outs nouts : list Q) : Prop :=
  run (Some p) h = (Ok (Some res), h')
  ∧ h' !! outliers res = Some outs
  ∧ h' !! non_outliers res = Some nouts.

(** The argument of [run] is [None] or refers to an object of the heap. *)
Definition valid_arg (h : heap) (p_list : option ref) : Prop :=
  match p_list with
  | None => True
  | Some p => is_Some (h !! p)
  end.

(** [l.count(v)]: how many elements compare equal to [v]. *)
Definition count (v : Q) (l : list Q) : nat :=
  length (List.filter (Qeq_bool v) l).

(** The quartiles in the words of the specification, on the data [sorted]
    in ascending order: split at [mid = floor(n/2)], take the element at
    [floor(len/2)] of each half. *)
Definition slice (a b : nat) (l : list Q) : list Q := take (b - a) (drop a l).

Definition spec_quartiles (sorted : list Q) : option (Q * Q) :=
  let n := length sorted in
  let mid := (n / 2)%nat in
  let lowerHalf := slice 0 mid sorted in
  let upperHalf :=
    if Nat.even n then slice mid n sorted else slice (mid + 1) n sorted in
  Q1 ← lowerHalf !! (length lowerHalf / 2)%nat;
  Q3 ← upperHalf !! (length upperHalf / 2)%nat;
  Some (Q1, Q3).

(** The fences in the words of the specification, [Q1 - 1.5 * IQR] and
    [Q3 + 1.5 * IQR], evaluated as Python evaluates them, in binary64. *)
Definition spec_fences (Q1 Q3 : Q) : outcome (float * float) :=
  let IQR := Q3 - Q1 in
  fIQR ← to_float IQR;
  fQ1 ← to_float Q1;
  fQ3 ← to_float Q3;
  Ok (SFsub prec emax fQ1 (SFmul prec emax float_1_5 fIQR),
      SFadd prec emax fQ3 (SFmul prec emax float_1_5 fIQR)).

(** ** Facts about comparison *)

Ltac Zify.zify_post_hook ::= Z.to_euclidean_division_equations.

Lemma Qltb_lt a b : Qltb a b = true ↔ a < b.
Proof. unfold Qltb, Qlt. apply Z.ltb_lt. Qed.

Lemma Qltb_ge a b : Qltb a b = false ↔ b <= a.
Proof. unfold Qltb, Qle. apply Z.ltb_ge. Qed.

#[global] Instance Qle_trans' : Transitive Qle.
Proof. intros x y z. apply Qle_trans. Qed.

Lemma Qltb_proper x x' y y' : x == x' → y == y' → Qltb x y = Qltb x' y'.
Proof.
  intros Hx Hy. destruct (Qltb x y) eqn:E; symmetry.
  - apply Qltb_lt. apply Qltb_lt in E. lra.
  - apply Qltb_ge. apply Qltb_ge in E. lra.
Qed.

(** ** Facts about floats *)

(** The conversion on known values: [float(Fraction(1, 3))],
    [float(2**53 + 1)], the literal [1.5], the largest integer that
    converts and the smallest that does not, and an underflow. *)
Example float_of_third :
  float_of_Q (1 # 3) = S754_finite false 6004799503160661 (-54).
Proof. reflexivity. Qed.

Example float_of_2_53_plus_1 :
  float_of_Q (inject_Z (2 ^ 53 + 1)) = S754_finite false 4503599627370496 1.
Proof. reflexivity. Qed.

Example float_of_1_5 : float_of_Q 1.5 = float_1_5.
Proof. reflexivity. Qed.

Example to_float_largest :
  to_float (inject_Z (2 ^ 1024 - 2 ^ 970 - 1))
  = Ok (S754_finite false 9007199254740991 971)
  ∧ to_float (inject_Z (2 ^ 1024 - 2 ^ 970)) = Raise OverflowError.
Proof. split; by vm_compute. Qed.

Example float_of_tiny : float_of_Q (-1 # 10 ^ 400) = S754_zero true.
Proof. by vm_compute. Qed.

(** Conversion depends on the value only, not on the representation. *)
Lemma float_of_Q_proper x y : x == y → float_of_Q x = float_of_Q y.
Proof.
  intros H. unfold float_of_Q. by rewrite (Qred_complete x y H).
Qed.

Lemma to_float_proper x y : x == y → to_float x = to_float y.
Proof. intros H. unfold to_float. by rewrite (float_of_Q_proper x y H). Qed.

Lemma py_fences_proper Q1 Q1' Q3 Q3' :
  Q1 == Q1' → Q3 == Q3' → py_fences Q1 Q3 = py_fences Q1' Q3'.
Proof.
  intros H1 H3. unfold py_fences, py_mul, py_sub, py_add.
  assert (HI : Q3 - Q1 == Q3' - Q1') by lra.
  by rewrite (to_float_proper _ _ HI), (to_float_proper _ _ H1),
    (to_float_proper _ _ H3).
Qed.

(** The only exception of the arithmetic is [OverflowError]. *)
Lemma to_float_raise x e : to_float x = Raise e → e = OverflowError.
Proof. unfold to_float. destruct (float_of_Q x); congruence. Qed.

Lemma py_fences_raise Q1 Q3 e : py_fences Q1 Q3 = Raise e → e = OverflowError.
Proof.
  unfold py_fences, py_mul, py_sub, py_add, mbind, outcome_bind.
  destruct (to_float (Q3 - Q1)) eqn:EI; [|intros; simplify_eq; by eapply to_float_raise].
  destruct (to_float Q1) eqn:E1; [|intros; simplify_eq; by eapply to_float_raise].
  destruct (to_float Q3) eqn:E3; [|intros; simplify_eq; by eapply to_float_raise].
  done.
Qed.

(** The fences are computed exactly when the three conversions succeed. *)
Lemma py_fences_ok_iff Q1 Q3 :
  (∃ lo hi, py_fences Q1 Q3 = Ok (lo, hi))
  ↔ (∃ f, to_float (Q3 - Q1) = Ok f)
    ∧ (∃ f, to_float Q1 = Ok f) ∧ (∃ f, to_float Q3 = Ok f).
Proof.
  unfold py_fences, py_mul, py_sub, py_add, mbind, outcome_bind.
  destruct (to_float (Q3 - Q1)) as [fi|], (to_float Q1) as [f1|],
    (to_float Q3) as [f3|]; split; try (intros (? & ? & ?); done);
    try (intros ([? ?] & [? ?] & [? ?]); done).
  - intros _. split_and!; by eexists.
  - intros _. by do 2 eexists.
Qed.

(** Rounding a non-negative mantissa never gives NaN. *)
Lemma shr_1_nonneg mrs : (0 ≤ shr_m mrs)%Z → (0 ≤ shr_m (shr_1 mrs))%Z.
Proof.
  destruct mrs as [m r s]. simpl.
  destruct m as [|[p|p|]|[p|p|]]; simpl; lia.
Qed.

Lemma iter_pos_shr_1_nonneg p mrs :
  (0 ≤ shr_m mrs)%Z → (0 ≤ shr_m (SpecFloat.iter_pos shr_1 p mrs))%Z.
Proof.
  revert mrs. induction p as [p IH|p IH|]; intros mrs H; simpl.
  - by apply IH, IH, shr_1_nonneg.
  - by apply IH, IH.
  - by apply shr_1_nonneg.
Qed.

Lemma shr_fexp_nonneg m e l :
  (0 ≤ m)%Z → (0 ≤ shr_m (shr_fexp prec emax m e l).1)%Z.
Proof.
  intros H. unfold shr_fexp, shr.
  assert (H0 : (0 ≤ shr_m (shr_record_of_loc m l))%Z)
    by (destruct l as [|[]]; exact H).
  destruct (fexp prec emax (Zdigits2 m + e) - e)%Z; simpl; try done.
  by apply iter_pos_shr_1_nonneg.
Qed.

Lemma round_nearest_even_nonneg m l :
  (0 ≤ m)%Z → (0 ≤ round_nearest_even m l)%Z.
Proof.
  intros H. unfold round_nearest_even.
  destruct l as [|[]]; try done; [destruct (Z.even m)|]; lia.
Qed.

Lemma binary_round_aux_not_nan sx mx ex lx :
  (0 ≤ mx)%Z → is_nan (binary_round_aux prec emax sx mx ex lx) = false.
Proof.
  intros H. unfold binary_round_aux.
  pose proof (shr_fexp_nonneg mx ex lx H) as H1.
  destruct (shr_fexp prec emax mx ex lx) as [mrs' e']. simpl in H1.
  pose proof (shr_fexp_nonneg _ e' loc_Exact
                (round_nearest_even_nonneg _ (loc_of_shr_record mrs') H1)) as H2.
  destruct (shr_fexp prec emax _ e' loc_Exact) as [mrs'' e'']. simpl in H2.
  destruct (shr_m mrs''); [done| |lia].
  by destruct (e'' <=? emax - prec)%Z.
Qed.

Lemma binary_normalize_not_nan m e :
  is_nan (binary_normalize prec emax m e false) = false.
Proof.
  unfold binary_normalize, binary_round. destruct m; [done|..];
    destruct (shl_align _ _ _); by apply binary_round_aux_not_nan.
Qed.

Lemma float_of_Q_not_nan q : is_nan (float_of_Q q) = false.
Proof.
  unfold float_of_Q. destruct (Qnum (Qred q)) as [|n|n]; [done|..].
  all: unfold SFdiv_core_binary.
  all: match goal with
       | |- context [Z.div_eucl ?a ?b] =>
           pose proof (Z.div_pos a b) as Hq;
           unfold Z.div in Hq; destruct (Z.div_eucl a b) as [q' r']
       end.
  all: apply binary_round_aux_not_nan; simpl in Hq; apply Hq; [|lia].
  all: match goal with
       | |- (0 ≤ match ?s with _ => _ end)%Z =>
           destruct s eqn:Es; [lia| |lia];
           rewrite Z.shiftl_mul_pow2 by lia; lia
       end.
Qed.

Lemma to_float_finite x f : to_float x = Ok f → is_finite f = true.
Proof.
  unfold to_float. pose proof (float_of_Q_not_nan x) as H.
  destruct (float_of_Q x); intros; simplify_eq; done.
Qed.

Lemma SFmul_not_nan f g :
  is_finite f = true → is_finite g = true →
  is_nan (SFmul prec emax f g) = false.
Proof.
  destruct f, g; try done. intros _ _. by apply binary_round_aux_not_nan.
Qed.

Lemma SFsub_not_nan f g :
  is_finite f = true → is_nan g = false →
  is_nan (SFsub prec emax f g) = false.
Proof.
  destruct f as [sf| | |sf mf ef], g as [sg|sg| |sg mg eg]; try done.
  - intros _ _. simpl. by destruct sf, sg.
  - intros _ _. simpl. apply binary_normalize_not_nan.
Qed.

Lemma SFadd_not_nan f g :
  is_finite f = true → is_nan g = false →
  is_nan (SFadd prec emax f g) = false.
Proof.
  destruct f as [sf| | |sf mf ef], g as [sg|sg| |sg mg eg]; try done.
  - intros _ _. simpl. by destruct sf, sg.
  - intros _ _. simpl. apply binary_normalize_not_nan.
Qed.

(** The fences are never NaN. *)
Lemma py_fences_not_nan Q1 Q3 lo hi :
  py_fences Q1 Q3 = Ok (lo, hi) → is_nan lo = false ∧ is_nan hi = false.
Proof.
  unfold py_fences, py_mul, py_sub, py_add, mbind, outcome_bind.
  destruct (to_float (Q3 - Q1)) as [fi|] eqn:EI; [|done].
  destruct (to_float Q1) as [f1|] eqn:E1; [|done].
  destruct (to_float Q3) as [f3|] eqn:E3; [|done].
  intros H. simplify_eq.
  apply to_float_finite in EI, E1, E3.
  assert (is_nan (SFmul prec emax fi float_1_5) = false)
    by by apply SFmul_not_nan.
  split; [by apply SFsub_not_nan|by apply SFadd_not_nan].
Qed.

Lemma is_nan_fval f : is_nan f = false ↔ fval f ≠ None.
Proof. by destruct f. Qed.

(** The boolean tests of the loop and the order of values. *)
Lemma py_lt_true x f : py_lt x f = true ↔ lt_float x f.
Proof.
  unfold py_lt, lt_float. destruct (fval f) as [[|a|]|]; simpl; try done.
  apply Qltb_lt.
Qed.

Lemma py_gt_true x f : py_gt x f = true ↔ gt_float x f.
Proof.
  unfold py_gt, gt_float. destruct (fval f) as [[|a|]|]; simpl; try done.
  apply Qltb_lt.
Qed.

Lemma py_lt_false x f : is_nan f = false → py_lt x f = false ↔ float_le f x.
Proof.
  intros Hn. apply is_nan_fval in Hn.
  unfold py_lt, float_le. destruct (fval f) as [[|a|]|]; simpl; try done.
  apply Qltb_ge.
Qed.

Lemma py_gt_false x f : is_nan f = false → py_gt x f = false ↔ le_float x f.
Proof.
  intros Hn. apply is_nan_fval in Hn.
  unfold py_gt, le_float. destruct (fval f) as [[|a|]|]; simpl; try done.
  apply Qltb_ge.
Qed.

Lemma py_lt_proper x y f : x == y → py_lt x f = py_lt y f.
Proof.
  intros H. unfold py_lt. destruct (fval f) as [[|a|]|]; try done.
  by apply Qltb_proper.
Qed.

Lemma py_gt_proper x y f : x == y → py_gt x f = py_gt y f.
Proof.
  intros H. unfold py_gt, Qgtb. destruct (fval f) as [[|a|]|]; try done.
  by apply Qltb_proper.
Qed.

(** Below a fence stays below for smaller numbers, above stays above for
    larger ones. *)
Lemma py_lt_mono x y f : x <= y → py_lt y f = true → py_lt x f = true.
Proof.
  intros H. unfold py_lt. destruct (fval f) as [[|a|]|]; try done.
  rewrite !Qltb_lt. lra.
Qed.

Lemma py_gt_mono x y f : x <= y → py_gt x f = true → py_gt y f = true.
Proof.
  intros H. unfold py_gt, Qgtb. destruct (fval f) as [[|a|]|]; try done.
  rewrite !Qltb_lt. lra.
Qed.




(** Float multiplication commutes, so [1.5 * IQR] is [IQR * 1.5]. *)
Lemma SFmul_comm f g : SFmul prec emax f g = SFmul prec emax g f.
Proof.
  destruct f as [sf|sf| |sf mf ef], g as [sg|sg| |sg mg eg]; simpl;
    rewrite ?(xorb_comm sf sg); try done.
  by rewrite (Pos.mul_comm mf mg), (Z.add_comm ef eg).
Qed.

Lemma spec_fences_py Q1 Q3 : spec_fences Q1 Q3 = py_fences Q1 Q3.
Proof.
  unfold spec_fences, py_fences, py_mul, py_sub, py_add, mbind, outcome_bind.
  destruct (to_float (Q3 - Q1)) as [fi|]; [|done].
  destruct (to_float Q1) as [f1|]; [|done].
  destruct (to_float Q3) as [f3|]; [|done].
  by rewrite (SFmul_comm float_1_5 fi).
Qed.

(** ** Facts about [list sort] *)

(** ** Facts about [list_sort] *)

Lemma insert_sorted_perm x l : insert_sorted x l ≡ₚ x :: l.
Proof.
  induction l as [|y t IH]; simpl; [done|].
  destruct (Qltb y x); [|done].
  rewrite IH. apply perm_swap.
Qed.

Lemma list_sort_perm l : list_sort l ≡ₚ l.
Proof.
  induction l as [|x l IH]; simpl; [done|].
  by rewrite insert_sorted_perm, IH.
Qed.

Lemma list_sort_length l : length (list_sort l) = length l.
Proof. by rewrite (list_sort_perm l). Qed.

Lemma insert_sorted_sorted x l :
  StronglySorted Qle l → StronglySorted Qle (insert_sorted x l).
Proof.
  induction 1 as [|y t Hs IH Hall]; simpl.
  - repeat constructor.
  - destruct (Qltb y x) eqn:E.
    + constructor; [done|]. rewrite insert_sorted_perm.
      constructor; [|done]. by apply Qlt_le_weak, Qltb_lt.
    + apply Qltb_ge in E.
      constructor; [by constructor|].
      constructor; [done|].
      eapply Forall_impl; [exact Hall|]. intros z Hz. by etrans.
Qed.

Lemma list_sort_sorted l : StronglySorted Qle (list_sort l).
Proof.
  induction l as [|x l IH]; simpl; [constructor|].
  by apply insert_sorted_sorted.
Qed.

(** Sorting a sorted list changes nothing. *)
Lemma list_sort_id l : StronglySorted Qle l → list_sort l = l.
Proof.
  induction 1 as [|y t Hs IH Hall]; simpl; [done|].
  rewrite IH. destruct Hall as [|z t' Hyz _]; simpl; [done|].
  apply Qltb_ge in Hyz. by rewrite Hyz.
Qed.

(** Stability: elements that compare equal keep their relative order. *)
Lemma insert_sorted_stable v x l :
  List.filter (Qeq_bool v) (insert_sorted x l)
  = List.filter (Qeq_bool v) (x :: l).
Proof.
  induction l as [|y t IH]; [done|].
  cbn [insert_sorted]. destruct (Qltb y x) eqn:E; [|done].
  cbn [List.filter] in *. rewrite IH.
  destruct (Qeq_bool v y) eqn:Ey, (Qeq_bool v x) eqn:Ex; try done.
  apply Qeq_bool_iff in Ey, Ex. apply Qltb_lt in E.
  rewrite <- Ey, <- Ex in E. by apply Qlt_irrefl in E.
Qed.

Lemma list_sort_stable v l :
  List.filter (Qeq_bool v) (list_sort l) = List.filter (Qeq_bool v) l.
Proof.
  induction l as [|x l IH]; [done|].
  cbn [list_sort foldr]. rewrite insert_sorted_stable.
  cbn [List.filter]. fold (list_sort l). by rewrite IH.
Qed.

(** A sorted list is determined by the order inside each class of equal
    elements: there is one stable sort. *)
Lemma sorted_classes_eq s s' :
  StronglySorted Qle s → StronglySorted Qle s' →
  (∀ v, List.filter (Qeq_bool v) s = List.filter (Qeq_bool v) s') →
  s = s'.
Proof.
  intros Hs. revert s'.
  induction Hs as [|x t Hs IH Hall]; intros s' Hs' Hcl.
  - destruct s' as [|x' t']; [done|].
    specialize (Hcl x'). simpl in Hcl.
    by rewrite (proj2 (Qeq_bool_iff x' x') (Qeq_refl x')) in Hcl.
  - destruct Hs' as [|x' t' Hs' Hall'].
    { specialize (Hcl x). simpl in Hcl.
      by rewrite (proj2 (Qeq_bool_iff x x) (Qeq_refl x)) in Hcl. }
    assert (Hle : x' <= x).
    { pose proof (Hcl x) as H. simpl in H.
      rewrite (proj2 (Qeq_bool_iff x x) (Qeq_refl x)) in H.
      assert (Hin : In x (x' :: t')).
      { eapply (proj1 (List.filter_In (Qeq_bool x) x (x' :: t'))).
        simpl. rewrite <- H. by left. }
      destruct Hin as [->|Hin]; [apply Qle_refl|].
      rewrite Forall_forall in Hall'. by apply Hall', list_elem_of_In. }
    assert (Hge : x <= x').
    { pose proof (Hcl x') as H. simpl in H.
      rewrite (proj2 (Qeq_bool_iff x' x') (Qeq_refl x')) in H.
      assert (Hin : In x' (x :: t)).
      { eapply (proj1 (List.filter_In (Qeq_bool x') x' (x :: t))).
        simpl. rewrite H. by left. }
      destruct Hin as [->|Hin]; [apply Qle_refl|].
      rewrite Forall_forall in Hall. by apply Hall, list_elem_of_In. }
    assert (Heq : x == x') by by apply Qle_antisym.
    assert (x = x') as <-.
    { pose proof (Hcl x) as H. simpl in H.
      rewrite (proj2 (Qeq_bool_iff x x) (Qeq_refl x)) in H.
      rewrite (proj2 (Qeq_bool_iff x x') Heq) in H. congruence. }
    f_equal. apply IH; [done|]. intros v.
    specialize (Hcl v). simpl in Hcl.
    destruct (Qeq_bool v x); congruence.
Qed.

Lemma stable_sort_unique l s :
  StronglySorted Qle s →
  (∀ v, List.filter (Qeq_bool v) s = List.filter (Qeq_bool v) l) →
  s = list_sort l.
Proof.
  intros Hs Hcl. apply sorted_classes_eq; [done|apply list_sort_sorted|].
  intros v. by rewrite Hcl, list_sort_stable.
Qed.

(** In a sorted list, a later position holds a value at least as large. *)
Lemma sorted_lookup_le s i j x y :
  StronglySorted Qle s → (i ≤ j)%nat →
  s !! i = Some x → s !! j = Some y → x <= y.
Proof.
  intros Hs. revert i j.
  induction Hs as [|z t Hs IH Hall]; intros i j Hij Hi Hj; [done|].
  destruct i as [|i], j as [|j]; simpl in *; simplify_eq.
  - apply Qle_refl.
  - rewrite Forall_forall in Hall. apply Hall.
    by eapply list_elem_of_lookup_2.
  - lia.
  - eapply IH; [|done..]. lia.
Qed.

Lemma filter_Forall {A} (P : A → Prop) f (l : list A) :
  Forall P l → Forall P (List.filter f l).
Proof.
  induction 1 as [|x l Hx Hl IH]; simpl; [constructor|].
  destruct (f x); [by constructor|done].
Qed.

Lemma filter_sorted f l :
  StronglySorted Qle l → StronglySorted Qle (List.filter f l).
Proof.
  induction 1 as [|x l Hs IH Hall]; simpl; [constructor|].
  destruct (f x); [|done]. constructor; [done|]. by apply filter_Forall.
Qed.

Lemma Forall2_Qeq_refl s : Forall2 Qeq s s.
Proof. induction s; constructor; [apply Qeq_refl|done]. Qed.

Lemma Forall2_Qeq_trans s1 s2 s3 :
  Forall2 Qeq s1 s2 → Forall2 Qeq s2 s3 → Forall2 Qeq s1 s3.
Proof.
  intros H12. revert s3.
  induction H12 as [|x y s1 s2 Hxy _ IH]; intros s3 H23;
    inversion H23; subst; constructor; [by etrans|by apply IH].
Qed.

Lemma insert_sorted_pointwise x s s' :
  Forall2 Qeq s s' → Forall2 Qeq (insert_sorted x s) (insert_sorted x s').
Proof.
  induction 1 as [|y y' s s' Hy Hs IH]; simpl.
  - constructor; [apply Qeq_refl|constructor].
  - rewrite (Qltb_proper y y' x x Hy (Qeq_refl x)).
    destruct (Qltb y' x).
    + by constructor.
    + constructor; [apply Qeq_refl|by constructor].
Qed.

(** The order of two insertions matters only between equal numbers. *)
Lemma insert_sorted_swap x y s :
  Forall2 Qeq (insert_sorted y (insert_sorted x s))
              (insert_sorted x (insert_sorted y s)).
Proof.
  induction s as [|z t IH].
  - simpl. destruct (Qltb x y) eqn:Exy, (Qltb y x) eqn:Eyx;
      try apply Forall2_Qeq_refl.
    + apply Qltb_lt in Exy, Eyx. lra.
    + apply Qltb_ge in Exy, Eyx.
      repeat constructor; lra.
  - cbn [insert_sorted].
    destruct (Qltb z x) eqn:Ezx, (Qltb z y) eqn:Ezy; cbn [insert_sorted];
      rewrite ?Ezx, ?Ezy.
    + constructor; [apply Qeq_refl|done].
    + assert (Qltb y x = true) as ->.
      { apply Qltb_lt. apply Qltb_lt in Ezx. apply Qltb_ge in Ezy. lra. }
      cbn [insert_sorted]. rewrite ?Ezx, ?Ezy. apply Forall2_Qeq_refl.
    + assert (Qltb x y = true) as ->.
      { apply Qltb_lt. apply Qltb_lt in Ezy. apply Qltb_ge in Ezx. lra. }
      cbn [insert_sorted]. rewrite ?Ezx, ?Ezy. apply Forall2_Qeq_refl.
    + destruct (Qltb x y) eqn:Exy, (Qltb y x) eqn:Eyx; cbn [insert_sorted];
        rewrite ?Ezx, ?Ezy; try apply Forall2_Qeq_refl.
      * apply Qltb_lt in Exy, Eyx. lra.
      * apply Qltb_ge in Exy, Eyx.
        constructor; [lra|]. constructor; [lra|]. apply Forall2_Qeq_refl.
Qed.

(** Sorting two arrangements of the same data gives lists that agree
    position by position, up to equality of numbers. *)
Lemma list_sort_perm_pointwise l l' :
  l ≡ₚ l' → Forall2 Qeq (list_sort l) (list_sort l').
Proof.
  induction 1 as [|x l l' _ IH|x y l|l1 l2 l3 _ IH1 _ IH2].
  - constructor.
  - cbn [list_sort foldr]. by apply insert_sorted_pointwise.
  - cbn [list_sort foldr]. apply insert_sorted_swap.
  - by eapply Forall2_Qeq_trans.
Qed.

(** ** Facts about filters *)



Lemma filter_none {A} (f : A → bool) l :
  Forall (λ x, f x = false) l → List.filter f l = [].
Proof.
  induction 1 as [|x l Hx Hl IH]; simpl; [done|]. by rewrite Hx.
Qed.

Lemma filter_has_one {A} (f : A → bool) l j b :
  l !! j = Some b → f b = true → (1 ≤ length (List.filter f l))%nat.
Proof.
  revert j. induction l as [|x t IH]; intros j Hj Hb; [done|].
  simpl. destruct j as [|j]; simpl in Hj.
  - injection Hj as ->. rewrite Hb. simpl. lia.
  - specialize (IH j Hj Hb). destruct (f x); simpl; lia.
Qed.

(** Two positions that pass the test leave at least two elements. *)
Lemma filter_has_two {A} (f : A → bool) l i j a b :
  (i < j)%nat → l !! i = Some a → l !! j = Some b →
  f a = true → f b = true → (2 ≤ length (List.filter f l))%nat.
Proof.
  revert i j. induction l as [|x t IH]; intros i j Hij Hi Hj Ha Hb; [done|].
  destruct j as [|j]; [lia|]. simpl in Hj.
  destruct i as [|i]; simpl in Hi.
  - injection Hi as ->. simpl. rewrite Ha. simpl.
    pose proof (filter_has_one f t j b Hj Hb). lia.
  - assert (Hij' : (i < j)%nat) by lia.
    specialize (IH i j Hij' Hi Hj Ha Hb).
    simpl. destruct (f x); simpl; lia.
Qed.

Lemma filter_filter_all {A} (f g : A → bool) l :
  (∀ x, g x = true → f x = true) →
  List.filter g (List.filter f l) = List.filter g l.
Proof.
  intros H. induction l as [|x l IH]; [done|]. simpl.
  destruct (f x) eqn:Ef; simpl; rewrite IH; [done|].
  destruct (g x) eqn:Eg; [|done]. apply H in Eg. congruence.
Qed.

Lemma filter_filter_none {A} (f g : A → bool) l :
  (∀ x, g x = true → f x = false) →
  List.filter g (List.filter f l) = [].
Proof.
  intros H. induction l as [|x l IH]; [done|]. simpl.
  destruct (f x) eqn:Ef; simpl; [|done].
  destruct (g x) eqn:Eg; [|done]. apply H in Eg. congruence.
Qed.

Lemma filter_pointwise (f f' : Q → bool) s s' :
  Forall2 Qeq s s' → (∀ x x', x == x' → f x = f' x') →
  Forall2 Qeq (List.filter f s) (List.filter f' s').
Proof.
  intros Hs Hf. induction Hs as [|x x' s s' Hx Hs IH]; simpl; [constructor|].
  rewrite (Hf x x' Hx). destruct (f' x'); [by constructor|done].
Qed.

(** ** Small facts used by the main theorems *)

Lemma count_perm v l l' : l ≡ₚ l' → count v l = count v l'.
Proof.
  unfold count. induction 1 as [|x l l' _ IH|x y l|l1 l2 l3 _ IH1 _ IH2]; simpl.
  - done.
  - destruct (Qeq_bool v x); simpl; by rewrite IH.
  - by destruct (Qeq_bool v x), (Qeq_bool v y).
  - by rewrite IH1.
Qed.

Lemma count_app v l1 l2 : count v (l1 ++ l2) = (count v l1 + count v l2)%nat.
Proof. unfold count. by rewrite List.filter_app, length_app. Qed.


(** ** Facts about the helpers of [Tukey] *)

(** ** Facts about the helpers of [Tukey] *)

Lemma append_spec r x l (h : heap) :
  h !! r = Some l → append r x h = (Ok tt, <[r := l ++ [x]]> h).
Proof. intros Hr. unfold append, mbind, M_bind, read. by rewrite Hr. Qed.

Lemma upper_start_bounds n :
  (2 ≤ n → n / 2 ≤ upper_start n ∧ upper_start n < n)%nat.
Proof.
  intros Hn. unfold upper_start.
  destruct (Nat.eqb_spec (n mod 2) 0); lia.
Qed.

Lemma quartile_idx_bounds n :
  (2 ≤ n → q1_idx n < n / 2 ∧ n / 2 ≤ q3_idx n ∧ q3_idx n < n)%nat.
Proof.
  intros Hn. unfold q1_idx, q3_idx.
  pose proof (upper_start_bounds n Hn). lia.
Qed.

Lemma median_lower_half s :
  (2 ≤ length s)%nat →
  ∃ Q1, s !! q1_idx (length s) = Some Q1
        ∧ __median (take (__medianIdx s) s) = Ok Q1.
Proof.
  intros Hn. destruct (quartile_idx_bounds _ Hn) as (H1 & _ & _).
  destruct (lookup_lt_is_Some_2 s (q1_idx (length s))) as [Q1 HQ1]; [lia|].
  exists Q1. split; [done|].
  unfold __median, __medianIdx.
  rewrite length_take_le by lia.
  rewrite lookup_take_lt by exact H1.
  unfold q1_idx in HQ1. by rewrite HQ1.
Qed.

(** ** What [run] returns, branch by branch *)

Lemma list_size_cases (l : list Q) :
  l = [] ∨ (∃ x, l = [x]) ∨ (2 ≤ length l)%nat.
Proof.
  destruct l as [|x [|y l]]; [by left|right; left; by exists x|].
  right; right. simpl. lia.
Qed.

Lemma median_upper_half s :
  (2 ≤ length s)%nat →
  ∃ Q3, s !! q3_idx (length s) = Some Q3 ∧ __median (upper_half s) = Ok Q3.
Proof.
  intros Hn. destruct (quartile_idx_bounds _ Hn) as (_ & _ & H3).
  destruct (lookup_lt_is_Some_2 s (q3_idx (length s))) as [Q3 HQ3]; [lia|].
  exists Q3. split; [done|].
  unfold q3_idx, upper_start in HQ3.
  unfold upper_half, __median, __medianIdx.
  destruct (length s mod 2 =? 0)%nat;
    rewrite lookup_drop, length_drop; by rewrite HQ3.
Qed.

(** The two halves handed to [__median] are never empty. *)
Lemma halves_nonempty s :
  (2 ≤ length s)%nat →
  (0 < length (take (__medianIdx s) s))%nat
  ∧ (0 < length (upper_half s))%nat.
Proof.
  intros Hn. unfold upper_half, __medianIdx. split.
  - rewrite length_take_le; lia.
  - destruct (Nat.eqb_spec (length s mod 2) 0); rewrite length_drop; lia.
Qed.

Lemma quartiles_lookup s Q1 Q3 :
  s !! q1_idx (length s) = Some Q1 → s !! q3_idx (length s) = Some Q3 →
  quartiles s = Some (Q1, Q3).
Proof. intros H1 H3. unfold quartiles. by rewrite H1, H3. Qed.

Lemma quartiles_ordered s Q1 Q3 :
  StronglySorted Qle s → (2 ≤ length s)%nat →
  s !! q1_idx (length s) = Some Q1 → s !! q3_idx (length s) = Some Q3 →
  Q1 <= Q3.
Proof.
  intros Hs Hn H1 H3. eapply sorted_lookup_le; [done| |done..].
  destruct (quartile_idx_bounds _ Hn). lia.
Qed.

(** ** The filter loop *)

Lemma is_outlier_proper lo hi x y :
  x == y → is_outlier lo hi x = is_outlier lo hi y.
Proof.
  intros H. unfold is_outlier.
  by rewrite (py_lt_proper x y lo H), (py_gt_proper x y hi H).
Qed.





Lemma partition_perm lo hi l :
  List.filter (is_outlier lo hi) l ++ List.filter (is_inlier lo hi) l ≡ₚ l.
Proof.
  induction l as [|x l IH]; simpl; [done|].
  unfold is_inlier at 1. destruct (is_outlier lo hi x); simpl.
  - by rewrite IH.
  - by rewrite <- Permutation_middle, IH.
Qed.

(** No outlier found means every element is an inlier. *)
Lemma no_outlier_all_inlier lo hi l :
  List.filter (is_outlier lo hi) l = [] → List.filter (is_inlier lo hi) l = l.
Proof.
  induction l as [|x l IH]; simpl; [done|].
  unfold is_inlier at 1. destruct (is_outlier lo hi x); simpl; [done|].
  intros H. by rewrite IH.
Qed.

(** The filter loop appends the outliers and the inliers of [l], in the
    order of [l], to the two output objects. *)
Lemma filter_loop lo hi o n l a b (h : heap) :
  o ≠ n → h !! o = Some a → h !! n = Some b →
  for_each l (λ elem,
    if py_lt elem lo || py_gt elem hi then append o elem else append n elem) h
  = (Ok tt,
     <[n := b ++ List.filter (is_inlier lo hi) l]>
       (<[o := a ++ List.filter (is_outlier lo hi) l]> h)).
Proof.
  intros Hon. revert a b h.
  induction l as [|x l IH]; intros a b h Ho Hn.
  - simpl. rewrite !app_nil_r.
    rewrite (list_insert_id h o a Ho). by rewrite (list_insert_id h n b Hn).
  - cbn [for_each List.filter]. unfold is_inlier at 1.
    fold (is_outlier lo hi x). unfold mbind, M_bind in *.
    pose proof (lookup_lt_Some _ _ _ Ho) as Hol.
    pose proof (lookup_lt_Some _ _ _ Hn) as Hnl.
    destruct (is_outlier lo hi x); cbn [negb].
    + rewrite (append_spec o x a h Ho).
      rewrite (IH (a ++ [x]) b).
      * by rewrite list_insert_insert_eq, <- app_assoc.
      * by apply list_lookup_insert_eq.
      * by rewrite list_lookup_insert_ne.
    + rewrite (append_spec n x b h Hn).
      rewrite (IH a (b ++ [x])).
      * rewrite (list_insert_insert_ne _ o n) by done.
        by rewrite list_insert_insert_eq, <- app_assoc.
      * by rewrite list_lookup_insert_ne.
      * by apply list_lookup_insert_eq.
Qed.

(** ** What [run] returns, branch by branch *)

Lemma with_outputs_lookup_old h r l :
  h !! r = Some l → with_outputs h !! r = Some l.
Proof.
  intros Hr. unfold with_outputs. rewrite <- app_assoc.
  by apply lookup_app_l_Some.
Qed.

Lemma with_outputs_outliers h : with_outputs h !! length h = Some [].
Proof.
  unfold with_outputs. rewrite <- app_assoc.
  by rewrite lookup_app_r, Nat.sub_diag.
Qed.

Lemma with_outputs_length h : length (with_outputs h) = S (S (length h)).
Proof. unfold with_outputs. rewrite !length_app. simpl. lia. Qed.

Lemma run_None h : run None h = (Ok None, h).
Proof. done. Qed.

Lemma run_empty h p : h !! p = Some [] → run (Some p) h = (Ok None, h).
Proof.
  intros Hp. unfold run, mbind, M_bind, read. by rewrite Hp.
Qed.

Lemma run_invalid h p : h !! p = None → run (Some p) h = (Raise InvalidRef, h).
Proof.
  intros Hp. unfold run, mbind, M_bind, read. by rewrite Hp.
Qed.

Lemma run_single h p x :
  h !! p = Some [x] →
  run (Some p) h
  = (Ok (Some (mkTukeyResult (length h) p None None)), with_outputs h).
Proof.
  intros Hp. unfold run, mbind, M_bind, read. by rewrite Hp.
Qed.

(** ** The one-element branch, in one statement *)

Lemma returns_single h p x :
  h !! p = Some [x] →
  returns h p (mkTukeyResult (length h) p None None) (with_outputs h) [] [x].
Proof.
  intros Hp. split_and!; cbn [outliers non_outliers].
  - by eapply run_single.
  - apply with_outputs_outliers.
  - by apply with_outputs_lookup_old.
Qed.

Lemma with_outputs_non_outliers h : with_outputs h !! S (length h) = Some [].
Proof.
  unfold with_outputs. rewrite lookup_app_r; rewrite length_app; simpl; [|lia].
  by replace (S (length h) - (length h + 1))%nat with 0%nat by lia.
Qed.

(** ** The heap during and after the full test *)

Section work_heap.
Context (h : heap) (p : ref) (s : list Q).
Hypothesis Hp : (p < length h)%nat.

Lemma sorted_heap_length : length (<[p := s]> (with_outputs h)) = S (S (length h)).
Proof. by rewrite length_insert, with_outputs_length. Qed.

Lemma work_heap_length : length (work_heap h p s) = (length h + 5)%nat.
Proof.
  unfold work_heap. rewrite !length_app, sorted_heap_length. simpl. lia.
Qed.

Lemma work_heap_lookup_lt r :
  (r < S (S (length h)))%nat →
  work_heap h p s !! r = <[p := s]> (with_outputs h) !! r.
Proof.
  intros Hr. unfold work_heap.
  rewrite !lookup_app_l; [done|rewrite ?length_app, sorted_heap_length; lia..].
Qed.

Lemma work_heap_outliers : work_heap h p s !! length h = Some [].
Proof.
  rewrite work_heap_lookup_lt by lia.
  rewrite list_lookup_insert_ne by lia. apply with_outputs_outliers.
Qed.

Lemma work_heap_non_outliers : work_heap h p s !! S (length h) = Some [].
Proof.
  rewrite work_heap_lookup_lt by lia.
  rewrite list_lookup_insert_ne by lia. apply with_outputs_non_outliers.
Qed.

Lemma work_heap_caller : work_heap h p s !! p = Some s.
Proof.
  rewrite work_heap_lookup_lt by lia.
  apply list_lookup_insert_eq. rewrite with_outputs_length. lia.
Qed.

Lemma work_heap_frame r :
  r ≠ p → (r < length h)%nat → work_heap h p s !! r = h !! r.
Proof.
  intros Hrp Hr. rewrite work_heap_lookup_lt by lia.
  rewrite list_lookup_insert_ne by lia.
  destruct (lookup_lt_is_Some_2 h r Hr) as [l Hl].
  rewrite Hl. by apply with_outputs_lookup_old.
Qed.

Context (outs nouts : list Q).

Lemma final_heap_outliers :
  final_heap h p s outs nouts !! length h = Some outs.
Proof.
  unfold final_heap.
  rewrite list_lookup_insert_ne by lia.
  apply list_lookup_insert_eq. rewrite work_heap_length. lia.
Qed.

Lemma final_heap_non_outliers :
  final_heap h p s outs nouts !! S (length h) = Some nouts.
Proof.
  unfold final_heap. apply list_lookup_insert_eq.
  rewrite !length_insert, work_heap_length. lia.
Qed.

Lemma final_heap_caller : final_heap h p s outs nouts !! p = Some s.
Proof.
  unfold final_heap.
  rewrite !list_lookup_insert_ne by lia. apply work_heap_caller.
Qed.

(** Frame: every other object the caller had is untouched. *)
Lemma final_heap_frame r :
  r ≠ p → (r < length h)%nat → final_heap h p s outs nouts !! r = h !! r.
Proof.
  intros Hrp Hr. unfold final_heap.
  rewrite !list_lookup_insert_ne by lia. by apply work_heap_frame.
Qed.

Lemma final_heap_length :
  length (final_heap h p s outs nouts) = (length h + 5)%nat.
Proof. unfold final_heap. by rewrite !length_insert, work_heap_length. Qed.
End work_heap.

Lemma work_heap_lower h p s :
  work_heap h p s !! length (<[p := s]> (with_outputs h))
  = Some (take (__medianIdx s) s).
Proof.
  unfold work_heap. rewrite <- !app_assoc. by apply list_lookup_middle.
Qed.

Lemma work_heap_upper h p s :
  work_heap h p s
    !! length ((<[p := s]> (with_outputs h) ++ [take (__medianIdx s) s]) ++ [[]])
  = Some (upper_half s).
Proof.
  unfold work_heap. by apply list_lookup_middle.
Qed.

Lemma alloc_spec l (h : heap) : alloc l h = (Ok (length h), h ++ [l]).
Proof. done. Qed.

Lemma alloc_if (c : bool) a b (h : heap) :
  (if c then alloc a else alloc b) h
  = (Ok (length h), h ++ [if c then a else b]).
Proof. by destruct c. Qed.

(** The full test: [run] sorts the data, takes the two quartiles, and
    either raises what the fence arithmetic raises or returns the fences
    with the data split by them. *)
Lemma run_many h p l :
  h !! p = Some l → (2 ≤ length l)%nat →
  ∃ Q1 Q3,
    let s := list_sort l in
    s !! q1_idx (length s) = Some Q1
    ∧ s !! q3_idx (length s) = Some Q3
    ∧ run (Some p) h
      = match py_fences Q1 Q3 with
        | Ok (lo, hi) =>
            (Ok (Some (mkTukeyResult (length h) (S (length h))
                         (Some lo) (Some hi))),
             final_heap h p s (List.filter (is_outlier lo hi) s)
                              (List.filter (is_inlier lo hi) s))
        | Raise e => (Raise e, work_heap h p s)
        end.
Proof.
  intros Hp Hn.
  assert (Hs : (2 ≤ length (list_sort l))%nat) by by rewrite list_sort_length.
  destruct (median_lower_half _ Hs) as (Q1 & HQ1 & Hm1).
  destruct (median_upper_half _ Hs) as (Q3 & HQ3 & Hm3).
  exists Q1, Q3. cbn zeta. split_and!; [done..|].
  assert (Hlt : (p < length h)%nat) by by eapply lookup_lt_Some.
  set (s := list_sort l) in *.
  unfold run, sort, mbind, M_bind, read, write, lift. rewrite Hp.
  destruct l as [|x [|y l]]; simpl in Hn; [lia..|].
  cbn [length Nat.ltb Nat.leb Nat.eqb].
  rewrite !alloc_spec. cbv beta iota zeta.
  fold (with_outputs h).
  rewrite (with_outputs_lookup_old h p _ Hp). fold s.
  assert (<[p := s]> (with_outputs h) !! p = Some s) as ->.
  { apply list_lookup_insert_eq. rewrite with_outputs_length. lia. }
  rewrite !alloc_spec. cbv beta iota zeta.
  rewrite alloc_if. fold (upper_half s). fold (work_heap h p s).
  cbv beta iota zeta.
  rewrite work_heap_lower. cbv beta iota zeta. rewrite Hm1.
  rewrite work_heap_upper. cbv beta iota zeta. rewrite Hm3.
  unfold py_fences, mbind.
  destruct (outcome_bind float float (λ t, py_sub Q1 t)
              (py_mul (Q3 - Q1) float_1_5)) as [lo|e]; [|done].
  destruct (outcome_bind float float (λ t, py_add Q3 t)
              (py_mul (Q3 - Q1) float_1_5)) as [hi|e]; [|done].
  cbn [outcome_bind].
  replace (length (h ++ [[]])) with (S (length h))
    by (rewrite length_app; simpl; lia).
  erewrite (filter_loop _ _ (length h) (S (length h)) _ [] []); [done|lia|..].
  - by apply work_heap_outliers.
  - by apply work_heap_non_outliers.
Qed.

Lemma fits_float_many l Q1 Q3 :
  (2 ≤ length l)%nat →
  list_sort l !! q1_idx (length (list_sort l)) = Some Q1 →
  list_sort l !! q3_idx (length (list_sort l)) = Some Q3 →
  fits_float l = match py_fences Q1 Q3 with Ok _ => true | Raise _ => false end.
Proof.
  intros Hn H1 H3. destruct l as [|x [|y l]]; simpl in Hn; [lia..|].
  unfold fits_float. by rewrite (quartiles_lookup _ _ _ H1 H3).
Qed.

(** The full test when no conversion overflows. *)
Lemma run_full h p l :
  h !! p = Some l → (2 ≤ length l)%nat → fits_float l = true →
  ∃ Q1 Q3 lo hi,
    let s := list_sort l in
    let outs := List.filter (is_outlier lo hi) s in
    let nouts := List.filter (is_inlier lo hi) s in
    let h' := final_heap h p s outs nouts in
    s !! q1_idx (length s) = Some Q1
    ∧ s !! q3_idx (length s) = Some Q3
    ∧ Q1 <= Q3
    ∧ py_fences Q1 Q3 = Ok (lo, hi)
    ∧ is_nan lo = false ∧ is_nan hi = false
    ∧ returns h p (mkTukeyResult (length h) (S (length h)) (Some lo) (Some hi))
        h' outs nouts
    ∧ h' !! p = Some s.
Proof.
  intros Hp Hn Hfit.
  destruct (run_many h p l Hp Hn) as (Q1 & Q3 & H1 & H3 & Hrun).
  cbn zeta in *. rewrite (fits_float_many l Q1 Q3 Hn H1 H3) in Hfit.
  destruct (py_fences Q1 Q3) as [[lo hi]|e] eqn:Ef; [|done].
  destruct (py_fences_not_nan _ _ _ _ Ef) as [Nlo Nhi].
  exists Q1, Q3, lo, hi. cbn zeta.
  assert (Hlt : (p < length h)%nat) by by eapply lookup_lt_Some.
  split_and!; try done.
  - eapply quartiles_ordered; [apply list_sort_sorted| |done..].
    by rewrite list_sort_length.
  - split_and!; [done|..]; cbn [outliers non_outliers].
    + by apply final_heap_outliers.
    + by apply final_heap_non_outliers.
  - by apply final_heap_caller.
Qed.

(** The full test when a conversion overflows: the data is sorted, the
    slices are built, and [OverflowError] is raised. *)
Lemma run_overflows h p l :
  h !! p = Some l → fits_float l = false →
  (2 ≤ length l)%nat
  ∧ run (Some p) h = (Raise OverflowError, work_heap h p (list_sort l)).
Proof.
  intros Hp Hfit.
  destruct (list_size_cases l) as [->|[[x ->]|Hn]]; [done..|].
  split; [done|].
  destruct (run_many h p l Hp Hn) as (Q1 & Q3 & H1 & H3 & Hrun).
  cbn zeta in *. rewrite (fits_float_many l Q1 Q3 Hn H1 H3) in Hfit.
  destruct (py_fences Q1 Q3) as [[lo hi]|e] eqn:Ef; [done|].
  by rewrite (py_fences_raise _ _ _ Ef) in Hrun.
Qed.

(** Frame: whatever [run] does, no other object that was in the heap is
    touched. *)
Lemma run_frame h p l r :
  h !! p = Some l → r ≠ p → (r < length h)%nat →
  (run (Some p) h).2 !! r = h !! r.
Proof.
  intros Hp Hrp Hr.
  assert (Hlt : (p < length h)%nat) by by eapply lookup_lt_Some.
  destruct (list_size_cases l) as [->|[[x ->]|Hn]].
  - by rewrite (run_empty h p Hp).
  - rewrite (run_single h p x Hp). simpl.
    destruct (lookup_lt_is_Some_2 h r Hr) as [k Hk].
    rewrite Hk. by apply with_outputs_lookup_old.
  - destruct (run_many h p l Hp Hn) as (Q1 & Q3 & _ & _ & Hrun).
    cbn zeta in Hrun. rewrite Hrun.
    destruct (py_fences Q1 Q3) as [[lo hi]|e]; simpl.
    + by apply final_heap_frame.
    + by apply work_heap_frame.
Qed.

Lemma run_single_alias h p x res h' :
  h !! p = Some [x] → run (Some p) h = (Ok (Some res), h') →
  non_outliers res = p.
Proof.
  intros Hp Hrun. rewrite (run_single h p x Hp) in Hrun. by simplify_eq.
Qed.

(** ** The specification's wording of the quartiles *)

Lemma slice_from_start b l : slice 0 b l = take b l.
Proof. unfold slice. by rewrite Nat.sub_0_r. Qed.

Lemma slice_to_end a l : slice a (length l) l = drop a l.
Proof. unfold slice. apply take_ge. by rewrite length_drop. Qed.

Lemma even_mod2 n : Nat.even n = (n mod 2 =? 0)%nat.
Proof.
  destruct (Nat.even n) eqn:E.
  - apply Nat.even_spec in E as [k ->]. symmetry. apply Nat.eqb_eq. lia.
  - symmetry. apply Nat.eqb_neq. intros H.
    assert (Nat.even n = true); [|congruence].
    apply Nat.even_spec. exists (n / 2)%nat. lia.
Qed.

(** On sorted data of at least two elements, the specification's two
    quartiles are the elements the code takes. *)
Lemma spec_quartiles_lookup s :
  (2 ≤ length s)%nat →
  spec_quartiles s = quartiles s.
Proof.
  intros Hs. unfold spec_quartiles, quartiles. cbn zeta.
  destruct (quartile_idx_bounds _ Hs) as (B1 & _ & B3).
  rewrite slice_from_start, !slice_to_end, even_mod2.
  rewrite length_take_le by lia.
  rewrite lookup_take_lt by exact B1.
  fold (q1_idx (length s)).
  destruct (s !! q1_idx (length s)) as [Q1|]; [|done]. cbn [mbind option_bind].
  unfold q3_idx, upper_start.
  destruct (length s mod 2 =? 0)%nat; by rewrite lookup_drop, length_drop.
Qed.

(** Two ascending arrangements of the same data have equal quartiles. *)
Lemma sorted_arrangement_pointwise sorted l :
  StronglySorted Qle sorted → sorted ≡ₚ l → Forall2 Qeq sorted (list_sort l).
Proof.
  intros Hs Hperm. rewrite <- (list_sort_id sorted Hs) at 1.
  by apply list_sort_perm_pointwise.
Qed.

Example median_of_even_half : __median (zs [1; 2; 3; 4]%Z) = Ok (inject_Z 3).
Proof. reflexivity. Qed.

(** ** The claims *)

(** C1, as the code has it.  For a list of at least two values, take any
    ascending arrangement [sorted] of it and the specification's quartiles:
    split at [mid = floor(n/2)], lower half [sorted[0:mid]], upper half
    [sorted[mid:n]] for even [n] and [sorted[mid+1:n]] for odd [n], [Q1] and
    [Q3] the elements at [floor(len/2)] of the halves.  The fences [run]
    returns are [Q1 - 1.5 * IQR] and [Q3 + 1.5 * IQR] evaluated in binary64
    floating point, and [run] raises [OverflowError] when that evaluation
    does.  On the data [2,3,3,4,5,6,7,8,9,10,50] the fences are [-6.0] and
    [18.0], the outliers [50] and the non-outliers [2,3,3,4,5,6,7,8,9,10]. *)
Theorem run_fences_median_of_halves h p l sorted :
  h !! p = Some l → (2 ≤ length l)%nat →
  StronglySorted Qle sorted → sorted ≡ₚ l →
  ∃ Q1 Q3,
    spec_quartiles sorted = Some (Q1, Q3)
    ∧ match spec_fences Q1 Q3 with
      | Ok (lo, hi) =>
          ∃ res h' outs nouts,
            returns h p res h' outs nouts
            ∧ lower_fence res = Some lo ∧ upper_fence res = Some hi
            ∧ (l = zs [2; 3; 3; 4; 5; 6; 7; 8; 9; 10; 50]%Z →
               float_is lo (inject_Z (-6)) ∧ float_is hi (inject_Z 18)
               ∧ outs = zs [50]%Z
               ∧ nouts = zs [2; 3; 3; 4; 5; 6; 7; 8; 9; 10]%Z)
      | Raise e =>
          e = OverflowError
          ∧ ∃ h', run (Some p) h = (Raise OverflowError, h')
      end.
Proof.
  intros Hp Hn Hsorted Hperm.
  destruct (run_many h p l Hp Hn) as (Q1' & Q3' & H1' & H3' & Hrun).
  cbn zeta in *.
  assert (Hlen : length sorted = length (list_sort l))
    by by rewrite Hperm, list_sort_length.
  assert (Hs : (2 ≤ length sorted)%nat) by (rewrite Hlen, list_sort_length; lia).
  pose proof (sorted_arrangement_pointwise sorted l Hsorted Hperm) as Hpw.
  destruct (quartile_idx_bounds _ Hs) as (B1 & B2 & B3).
  destruct (lookup_lt_is_Some_2 sorted (q1_idx (length sorted))) as [Q1 H1];
    [lia|].
  destruct (lookup_lt_is_Some_2 sorted (q3_idx (length sorted))) as [Q3 H3];
    [lia|].
  exists Q1, Q3. split.
  { rewrite (spec_quartiles_lookup sorted Hs). by apply quartiles_lookup. }
  rewrite <- Hlen in H1', H3'.
  assert (E1 : Q1 == Q1') by by eapply Forall2_lookup_lr.
  assert (E3 : Q3 == Q3') by by eapply Forall2_lookup_lr.
  rewrite spec_fences_py, (py_fences_proper Q1 Q1' Q3 Q3' E1 E3).
  assert (Hlt : (p < length h)%nat) by by eapply lookup_lt_Some.
  destruct (py_fences Q1' Q3') as [[lo hi]|e] eqn:Ef.
  - do 4 eexists. split_and!.
    + split_and!; [exact Hrun|..]; cbn [outliers non_outliers].
      * by apply final_heap_outliers.
      * by apply final_heap_non_outliers.
    + done.
    + done.
    + intros ->. rewrite Hlen in H1', H3'. vm_compute in H1', H3'.
      injection H1' as <-. injection H3' as <-.
      vm_compute in Ef. injection Ef as <- <-.
      split_and!; [eexists; split; [reflexivity|by vm_compute]..| |];
        by vm_compute.
  - split; [by eapply py_fences_raise|].
    rewrite (py_fences_raise _ _ _ Ef) in Hrun. by eexists.
Qed.

Lemma run_fences_median_of_halves_witness :
  ∃ Q1 Q3,
    spec_quartiles (zs [2; 3; 3; 4; 5; 6; 7; 8; 9; 10; 50]%Z) = Some (Q1, Q3)
    ∧ match spec_fences Q1 Q3 with
      | Ok (lo, hi) =>
          ∃ res h' outs nouts,
            returns [zs [50; 3; 2; 4; 5; 3; 7; 8; 9; 10; 6]%Z] 0
              res h' outs nouts
            ∧ lower_fence res = Some lo ∧ upper_fence res = Some hi
            ∧ (zs [50; 3; 2; 4; 5; 3; 7; 8; 9; 10; 6]%Z
               = zs [2; 3; 3; 4; 5; 6; 7; 8; 9; 10; 50]%Z →
               float_is lo (inject_Z (-6)) ∧ float_is hi (inject_Z 18)
               ∧ outs = zs [50]%Z
               ∧ nouts = zs [2; 3; 3; 4; 5; 6; 7; 8; 9; 10]%Z)
      | Raise e =>
          e = OverflowError
          ∧ ∃ h', run (Some 0%nat) [zs [50; 3; 2; 4; 5; 3; 7; 8; 9; 10; 6]%Z]
                  = (Raise OverflowError, h')
      end.
Proof.
  apply (run_fences_median_of_halves
           [zs [50; 3; 2; 4; 5; 3; 7; 8; 9; 10; 6]%Z] 0
           (zs [50; 3; 2; 4; 5; 3; 7; 8; 9; 10; 6]%Z)
           (zs [2; 3; 3; 4; 5; 6; 7; 8; 9; 10; 50]%Z)).
  - reflexivity.
  - simpl. lia.
  - repeat constructor; by vm_compute.
  - change (zs [2; 3; 3; 4; 5; 6; 7; 8; 9; 10; 50]%Z)
      with (list_sort (zs [50; 3; 2; 4; 5; 3; 7; 8; 9; 10; 6]%Z)).
    apply list_sort_perm.
Defined.

(** C1, as stated, fails: on [0,0,0,0,2**53+2,22517998136852486] the
    quartiles are 0 and 2**53+2, so [Q3 + 1.5 * IQR] is
    22517998136852485, but the returned upper fence is the float
    22517998136852488.0, and the last value, above the exact fence, is not
    reported as an outlier. *)
Lemma fences_are_rounded :
  ∃ res h' hi,
    returns [zs [0; 0; 0; 0; 2 ^ 53 + 2; 22517998136852486]%Z] 0 res h'
      [] (zs [0; 0; 0; 0; 2 ^ 53 + 2; 22517998136852486]%Z)
    ∧ quartiles (list_sort (zs [0; 0; 0; 0; 2 ^ 53 + 2; 22517998136852486]%Z))
      = Some (inject_Z 0, inject_Z (2 ^ 53 + 2))
    ∧ upper_fence res = Some hi
    ∧ float_is hi (inject_Z 22517998136852488)
    ∧ ¬ float_is hi (inject_Z (2 ^ 53 + 2)
                      + 1.5 * (inject_Z (2 ^ 53 + 2) - inject_Z 0)).
Proof.
  exists (mkTukeyResult 1 2 (Some (S754_finite true 6755399441055746 1))
            (Some (S754_finite false 5629499534213122 2))).
  eexists. exists (S754_finite false 5629499534213122 2).
  split_and!.
  - split_and!; [by vm_compute|reflexivity|reflexivity].
  - by vm_compute.
  - done.
  - eexists. split; [reflexivity|by vm_compute].
  - intros (a & Ha & Hax). injection Ha as <-. vm_compute in Hax. done.
Qed.

(** C2. For a non-empty list, the two output lists of the returned result
    together hold exactly the input: the lengths add up,
    [outliers ++ non_outliers] is a permutation of the input, for every
    value the counts in the two outputs add up to its count in the input,
    and no value is in both outputs. *)
Theorem run_partitions_input h p l :
  h !! p = Some l → l ≠ [] → fits_float l = true →
  ∃ res h' outs nouts,
    returns h p res h' outs nouts
    ∧ (length outs + length nouts = length l)%nat
    ∧ outs ++ nouts ≡ₚ l
    ∧ (∀ v, (count v outs + count v nouts = count v l)%nat)
    ∧ (∀ x y, x ∈ outs → y ∈ nouts → ¬ x == y).
Proof.
  intros Hp Hne Hfit.
  assert (∃ res h' outs nouts,
    returns h p res h' outs nouts ∧ outs ++ nouts ≡ₚ l
    ∧ (∀ x y, x ∈ outs → y ∈ nouts → ¬ x == y))
    as (res & h' & outs & nouts & Hret & Hperm & Hex).
  { destruct (list_size_cases l) as [->|[[x ->]|Hn]]; [done|..].
    - exists (mkTukeyResult (length h) p None None), (with_outputs h), [], [x].
      split_and!; [by apply returns_single|done|].
      intros x' y Hx. by apply elem_of_nil in Hx.
    - destruct (run_full h p l Hp Hn Hfit)
        as (Q1 & Q3 & lo & hi & _ & _ & _ & _ & _ & _ & Hret & _).
      cbn zeta in *. do 4 eexists. split_and!; [exact Hret|..].
      + by rewrite partition_perm, list_sort_perm.
      + intros x y Hx Hy Hxy.
        apply list_elem_of_In, List.filter_In in Hx as [_ Hx].
        apply list_elem_of_In, List.filter_In in Hy as [_ Hy].
        unfold is_inlier in Hy.
        rewrite (is_outlier_proper lo hi x y Hxy) in Hx.
        by rewrite Hx in Hy. }
  exists res, h', outs, nouts. split_and!; try done.
  - by rewrite <- Hperm, length_app.
  - intros v. by rewrite <- (count_perm v _ _ Hperm), count_app.
Qed.

Lemma run_partitions_input_witness :
  ∃ res h' outs nouts,
    returns [zs [3; 50; 2; 3]%Z] 0 res h' outs nouts
    ∧ (length outs + length nouts = length (zs [3; 50; 2; 3]%Z))%nat
    ∧ outs ++ nouts ≡ₚ zs [3; 50; 2; 3]%Z
    ∧ (∀ v, (count v outs + count v nouts = count v (zs [3; 50; 2; 3]%Z))%nat)
    ∧ (∀ x y, x ∈ outs → y ∈ nouts → ¬ x == y).
Proof.
  apply (run_partitions_input [zs [3; 50; 2; 3]%Z] 0 (zs [3; 50; 2; 3]%Z)).
  - reflexivity.
  - discriminate.
  - by vm_compute.
Defined.








(** C5. On a one-element list [[x]], [run] returns a result whose
    non-outliers are [[x]], whose outliers are empty and whose two fences
    are [None]. *)
Theorem run_single_element h p x :
  h !! p = Some [x] →
  ∃ res h',
    returns h p res h' [] [x]
    ∧ lower_fence res = None ∧ upper_fence res = None.
Proof.
  intros Hp. do 2 eexists. split; [by apply returns_single|done].
Qed.

Lemma run_single_element_witness :
  ∃ res h',
    returns [[inject_Z 5]] 0 res h' [] [inject_Z 5]
    ∧ lower_fence res = None ∧ upper_fence res = None.
Proof.
  apply (run_single_element [[inject_Z 5]] 0 (inject_Z 5)). reflexivity.
Defined.

(** C6. For a non-empty list, both output lists of the returned result are
    in non-decreasing order. *)
Theorem run_outputs_sorted h p l :
  h !! p = Some l → l ≠ [] → fits_float l = true →
  ∃ res h' outs nouts,
    returns h p res h' outs nouts
    ∧ Sorted Qle outs ∧ Sorted Qle nouts.
Proof.
  intros Hp Hne Hfit.
  destruct (list_size_cases l) as [->|[[x ->]|Hn]]; [done|..].
  - do 4 eexists. split; [by apply returns_single|].
    split; repeat constructor.
  - destruct (run_full h p l Hp Hn Hfit)
      as (Q1 & Q3 & lo & hi & _ & _ & _ & _ & _ & _ & Hret & _).
    cbn zeta in *. do 4 eexists. split; [exact Hret|].
    split; apply StronglySorted_Sorted, filter_sorted, list_sort_sorted.
Qed.

Lemma run_outputs_sorted_witness :
  ∃ res h' outs nouts,
    returns [zs [9; 50; 2; 7; 3; -40; 6]%Z] 0 res h' outs nouts
    ∧ Sorted Qle outs ∧ Sorted Qle nouts.
Proof.
  apply (run_outputs_sorted [zs [9; 50; 2; 7; 3; -40; 6]%Z] 0
           (zs [9; 50; 2; 7; 3; -40; 6]%Z)).
  - reflexivity.
  - discriminate.
  - by vm_compute.
Defined.

(** C7. For a list of at least two elements, after [run] the caller's list
    object holds the same values as before, rearranged in ascending order
    (also when [run] ends in [OverflowError]: the sort comes first).  An
    empty or one-element list is left as it was, and with [None] for
    argument nothing in the heap changes.  [run] returns normally whenever
    no conversion to float overflows. *)
Theorem run_sorts_in_place h p l :
  h !! p = Some l →
  ∃ o h',
    run (Some p) h = (o, h')
    ∧ (fits_float l = true → ∃ r, o = Ok r)
    ∧ ((2 ≤ length l)%nat →
       ∃ s, h' !! p = Some s ∧ s ≡ₚ l ∧ Sorted Qle s)
    ∧ ((length l ≤ 1)%nat → h' !! p = Some l)
    ∧ run None h = (Ok None, h).
Proof.
  intros Hp.
  assert (Hlt : (p < length h)%nat) by by eapply lookup_lt_Some.
  destruct (list_size_cases l) as [->|[[x ->]|Hn]].
  - exists (Ok None), h.
    split_and!; [by apply run_empty|by eexists| |done..].
    simpl. lia.
  - do 2 eexists. split_and!; [by eapply run_single|by eexists| | |done].
    + simpl. lia.
    + intros _. by apply with_outputs_lookup_old.
  - destruct (run_many h p l Hp Hn) as (Q1 & Q3 & H1 & H3 & Hrun).
    cbn zeta in *.
    pose proof (fits_float_many l Q1 Q3 Hn H1 H3) as Hfit.
    assert (Hsorted : ∃ s, Some (list_sort l) = Some s ∧ s ≡ₚ l ∧ Sorted Qle s).
    { exists (list_sort l). split_and!; [done|apply list_sort_perm|].
      apply StronglySorted_Sorted, list_sort_sorted. }
    destruct (py_fences Q1 Q3) as [[lo hi]|e].
    + do 2 eexists. split_and!; [exact Hrun|by eexists| |lia|done].
      intros _. by rewrite final_heap_caller.
    + do 2 eexists. split_and!; [exact Hrun|by rewrite Hfit| |lia|done].
      intros _. by rewrite work_heap_caller.
Qed.

Lemma run_sorts_in_place_witness :
  ∃ o h',
    run (Some 0%nat) [zs [3; 1; 2]%Z] = (o, h')
    ∧ (fits_float (zs [3; 1; 2]%Z) = true → ∃ r, o = Ok r)
    ∧ ((2 ≤ length (zs [3; 1; 2]%Z))%nat →
       ∃ s, h' !! 0%nat = Some s ∧ s ≡ₚ zs [3; 1; 2]%Z ∧ Sorted Qle s)
    ∧ ((length (zs [3; 1; 2]%Z) ≤ 1)%nat → h' !! 0%nat = Some (zs [3; 1; 2]%Z))
    ∧ run None [zs [3; 1; 2]%Z] = (Ok None, [zs [3; 1; 2]%Z]).
Proof.
  apply (run_sorts_in_place [zs [3; 1; 2]%Z] 0 (zs [3; 1; 2]%Z)). reflexivity.
Defined.

(** C8, as the code has it.  [run] never raises [IndexError]: for a list
    of at least two elements the two halves handed to [__median] are
    non-empty, so the index [floor(len/2)] is within bounds and [__median]
    returns.  The only exception [run] raises is [OverflowError], and it
    returns normally exactly when no conversion to float overflows. *)
Theorem run_never_raises h p_list :
  valid_arg h p_list →
  (∀ e, fst (run p_list h) = Raise e → e = OverflowError)
  ∧ (∀ p l, p_list = Some p → h !! p = Some l →
     (fits_float l = true ↔ ∃ r h', run p_list h = (Ok r, h')))
  ∧ (∀ l Q1 Q3, quartiles (list_sort l) = Some (Q1, Q3) →
     (2 ≤ length l)%nat →
     (fits_float l = true
      ↔ (∃ f, to_float (Q3 - Q1) = Ok f)
        ∧ (∃ f, to_float Q1 = Ok f) ∧ (∃ f, to_float Q3 = Ok f)))
  ∧ (∀ p l, p_list = Some p → h !! p = Some l → (2 ≤ length l)%nat →
     let s := list_sort l in
     let split_idx := __medianIdx s in
     let lower_list := take split_idx s in
     let upper_list :=
       if (length s mod 2 =? 0)%nat then drop split_idx s
       else drop (split_idx + 1) s in
     lower_list ≠ [] ∧ upper_list ≠ []
     ∧ (__medianIdx lower_list < length lower_list)%nat
     ∧ (__medianIdx upper_list < length upper_list)%nat
     ∧ ∃ Q1 Q3, __median lower_list = Ok Q1 ∧ __median upper_list = Ok Q3).
Proof.
  intros Hv.
  assert (Hiff : ∀ p l, p_list = Some p → h !! p = Some l →
     (fits_float l = true ↔ ∃ r h', run p_list h = (Ok r, h'))).
  { intros p l -> Hp. split.
    - intros Hfit. destruct (list_size_cases l) as [->|[[x ->]|Hn]].
      + do 2 eexists. by apply run_empty.
      + do 2 eexists. by eapply run_single.
      + destruct (run_full h p l Hp Hn Hfit)
          as (Q1 & Q3 & lo & hi & _ & _ & _ & _ & _ & _ & [Hrun _] & _).
        by do 2 eexists.
    - intros (r & h' & Hrun). destruct (fits_float l) eqn:Hfit; [done|].
      destruct (run_overflows h p l Hp Hfit) as [_ Hrun']. congruence. }
  split_and!; [|exact Hiff| |].
  - intros e He. destruct p_list as [p|]; [|done]. destruct Hv as [l Hp].
    destruct (fits_float l) eqn:Hfit.
    + apply (Hiff p l eq_refl Hp) in Hfit as (r & h' & Hrun).
      rewrite Hrun in He. done.
    + destruct (run_overflows h p l Hp Hfit) as [_ Hrun].
      rewrite Hrun in He. simpl in He. congruence.
  - intros l Q1 Q3 Hq Hn. rewrite <- py_fences_ok_iff.
    destruct l as [|x [|y l]]; simpl in Hn; [lia..|].
    unfold fits_float. rewrite Hq.
    destruct (py_fences Q1 Q3) as [[lo hi]|e]; split; try done.
    + intros _. by exists lo, hi.
    + intros (? & ? & ?). done.
  - intros p l -> Hp Hn. cbn zeta.
    assert (Hs : (2 ≤ length (list_sort l))%nat) by by rewrite list_sort_length.
    destruct (halves_nonempty _ Hs) as [Hlo Hup].
    destruct (median_lower_half _ Hs) as (Q1 & _ & Hm1).
    destruct (median_upper_half _ Hs) as (Q3 & _ & Hm3).
    unfold upper_half in *.
    split_and!.
    + intros E. rewrite E in Hlo. simpl in Hlo. lia.
    + intros E. rewrite E in Hup. simpl in Hup. lia.
    + unfold __medianIdx at 1. lia.
    + unfold __medianIdx at 1. lia.
    + by exists Q1, Q3.
Qed.

Lemma run_never_raises_witness :
  (∀ e, fst (run (Some 0%nat) [zs [8; 1]%Z]) = Raise e → e = OverflowError)
  ∧ (∀ p l, Some 0%nat = Some p → ([zs [8; 1]%Z] : heap) !! p = Some l →
     (fits_float l = true
      ↔ ∃ r h', run (Some 0%nat) [zs [8; 1]%Z] = (Ok r, h')))
  ∧ (∀ l Q1 Q3, quartiles (list_sort l) = Some (Q1, Q3) →
     (2 ≤ length l)%nat →
     (fits_float l = true
      ↔ (∃ f, to_float (Q3 - Q1) = Ok f)
        ∧ (∃ f, to_float Q1 = Ok f) ∧ (∃ f, to_float Q3 = Ok f)))
  ∧ (∀ p l, Some 0%nat = Some p → ([zs [8; 1]%Z] : heap) !! p = Some l →
     (2 ≤ length l)%nat →
     let s := list_sort l in
     let split_idx := __medianIdx s in
     let lower_list := take split_idx s in
     let upper_list :=
       if (length s mod 2 =? 0)%nat then drop split_idx s
       else drop (split_idx + 1) s in
     lower_list ≠ [] ∧ upper_list ≠ []
     ∧ (__medianIdx lower_list < length lower_list)%nat
     ∧ (__medianIdx upper_list < length upper_list)%nat
     ∧ ∃ Q1 Q3, __median lower_list = Ok Q1 ∧ __median upper_list = Ok Q3).
Proof.
  apply (run_never_raises [zs [8; 1]%Z] (Some 0%nat)).
  simpl. by eexists.
Defined.

(** C8, as stated, fails: [-2**1023, 2**1023] is a list of two integers
    that are both floats, but their difference [IQR = 2**1024] is too large
    to convert and [run] raises [OverflowError]. *)
Lemma run_raises_overflow :
  representable (inject_Z (- 2 ^ 1023)) ∧ representable (inject_Z (2 ^ 1023))
  ∧ fst (run (Some 0%nat) [zs [- 2 ^ 1023; 2 ^ 1023]%Z]) = Raise OverflowError.
Proof.
  split_and!; [| |by vm_compute].
  - eexists. split; [by vm_compute|]. eexists. split; [reflexivity|by vm_compute].
  - eexists. split; [by vm_compute|]. eexists. split; [reflexivity|by vm_compute].
Qed.

(** C9, as the code has it.  For a list of at least two values, if [run]
    returns a result with no outlier and non-outliers [N], then [run] on
    [N], with the fences recomputed from [N] itself, returns the same
    fences and again no outlier: its non-outliers are [N]. *)
Theorem rerun_on_non_outliers h p l res h' N :
  h !! p = Some l → (2 ≤ length l)%nat →
  returns h p res h' [] N →
  ∃ res2 h2,
    returns h' (non_outliers res) res2 h2 [] N
    ∧ lower_fence res2 = lower_fence res
    ∧ upper_fence res2 = upper_fence res.
Proof.
  intros Hp Hn (Hrun & Hout & Hnout).
  destruct (fits_float l) eqn:Hfit.
  2: { destruct (run_overflows h p l Hp Hfit) as [_ Hrun']. congruence. }
  destruct (run_full h p l Hp Hn Hfit)
    as (Q1 & Q3 & lo & hi & H1 & H3 & _ & Ef & _ & _ & Hret & _).
  cbn zeta in *. destruct Hret as (Hrun' & Hout' & Hnout').
  rewrite Hrun' in Hrun. injection Hrun as <- <-.
  cbn [outliers non_outliers] in *.
  rewrite Hout' in Hout. injection Hout as Hnone.
  rewrite Hnout' in Hnout. injection Hnout as <-.
  pose proof (no_outlier_all_inlier _ _ _ Hnone) as HN.
  rewrite HN in *.
  assert (Hs : (2 ≤ length (list_sort l))%nat) by by rewrite list_sort_length.
  assert (Hfit2 : fits_float (list_sort l) = true).
  { rewrite (fits_float_many (list_sort l) Q1 Q3 Hs);
      rewrite ?(list_sort_id (list_sort l)) by apply list_sort_sorted;
      [by rewrite Ef|done..]. }
  destruct (run_full _ _ (list_sort l) Hnout' Hs Hfit2)
    as (Q1' & Q3' & lo' & hi' & H1' & H3' & _ & Ef' & _ & _ & Hret' & _).
  cbn zeta in *.
  rewrite (list_sort_id (list_sort l)) in * by apply list_sort_sorted.
  assert (Q1' = Q1) as -> by congruence.
  assert (Q3' = Q3) as -> by congruence.
  rewrite Ef in Ef'. injection Ef' as <- <-.
  rewrite Hnone, HN in Hret'. rewrite Hnone. by do 2 eexists.
Qed.

Lemma rerun_on_non_outliers_witness :
  ∃ res h' res2 h2,
    returns [zs [4; 1; 3; 2]%Z] 0 res h' [] (zs [1; 2; 3; 4]%Z)
    ∧ returns h' (non_outliers res) res2 h2 [] (zs [1; 2; 3; 4]%Z)
    ∧ lower_fence res2 = lower_fence res
    ∧ upper_fence res2 = upper_fence res.
Proof.
  pose (res := mkTukeyResult 1 2
                 (Some (S754_finite true 4503599627370496 (-52)))
                 (Some (S754_finite false 7881299347898368 (-50)))).
  pose (h' := [zs [1; 2; 3; 4]%Z; []; zs [1; 2; 3; 4]%Z;
               zs [1; 2]%Z; []; zs [3; 4]%Z]).
  assert (Hret : returns [zs [4; 1; 3; 2]%Z] 0 res h' [] (zs [1; 2; 3; 4]%Z)).
  { split_and!; [by vm_compute|reflexivity|reflexivity]. }
  destruct (rerun_on_non_outliers [zs [4; 1; 3; 2]%Z] 0 (zs [4; 1; 3; 2]%Z)
              res h' (zs [1; 2; 3; 4]%Z) eq_refl ltac:(simpl; lia) Hret)
    as (res2 & h2 & H2).
  by exists res, h', res2, h2.
Defined.

(** C9, as stated, fails: the first run on [0,4,5,5,5,5,6,100] keeps
    [N = [4,5,5,5,5,6]] (fences 3.5 and 7.5); the run on [N] has both
    fences equal to 5.0 and reports the outliers [4,6]. *)
Lemma rerun_reclassifies :
  ∃ res h' res2 h2,
    returns [zs [0; 4; 5; 5; 5; 5; 6; 100]%Z] 0 res h'
      (zs [0; 100]%Z) (zs [4; 5; 5; 5; 5; 6]%Z)
    ∧ returns h' (non_outliers res) res2 h2
        (zs [4; 6]%Z) (zs [5; 5; 5; 5]%Z)
    ∧ zs [4; 6]%Z ≠ [].
Proof.
  exists (mkTukeyResult 1 2
            (Some (S754_finite false 7881299347898368 (-51)))
            (Some (S754_finite false 8444249301319680 (-50)))).
  eexists.
  exists (mkTukeyResult 6 7
            (Some (S754_finite false 5629499534213120 (-50)))
            (Some (S754_finite false 5629499534213120 (-50)))).
  eexists.
  split_and!; [| |discriminate].
  - split_and!; [by vm_compute|reflexivity|reflexivity].
  - split_and!; [by vm_compute|reflexivity|reflexivity].
Qed.



(** The hypothesis of C10 holds of the fences [run] returns on
    [-100, 1, 2, 3, 100]: the quartiles are 1 and 100, the fences -147.5
    and 248.5, with nothing rounded. *)
Example exact_fences_example :
  ∃ lo hi,
    quartiles (list_sort (zs [-100; 1; 2; 3; 100]%Z))
    = Some (inject_Z 1, inject_Z 100)
    ∧ py_fences (inject_Z 1) (inject_Z 100) = Ok (lo, hi)
    ∧ exact_fences (inject_Z 1) (inject_Z 100) lo hi.
Proof.
  do 2 eexists. split_and!; [by vm_compute|by vm_compute|].
  split; (eexists; split; [reflexivity|by vm_compute]).
Qed.


(** ** Further properties of the helpers and of [run] *)

(** X1. [__median] raises [IndexError] on the empty list and on no other;
    on a non-empty list it returns the element at position [floor(len/2)],
    which is an element of the list. *)
Theorem median_raises_iff_empty l :
  match __median l with
  | Ok v => l ≠ [] ∧ l !! (length l / 2)%nat = Some v ∧ v ∈ l
  | Raise e => e = IndexError ∧ l = []
  end.
Proof.
  unfold __median, __medianIdx.
  destruct (l !! (length l / 2)%nat) as [v|] eqn:E.
  - split_and!; [|done|by eapply list_elem_of_lookup_2].
    intros ->. done.
  - split; [done|]. apply lookup_ge_None in E.
    destruct l as [|x l]; [done|]. cbn [length] in E. lia.
Qed.

(** X2. On a non-empty sorted list [__median] returns a value that splits
    it: the [floor(len/2)] elements before it are at most the value, the
    elements after it are at least the value, and the part before is as long
    as the part after or one longer (for an even length the value is the
    upper of the two middle elements). *)
Theorem median_splits_sorted l :
  StronglySorted Qle l → l ≠ [] →
  ∃ v left right,
    __median l = Ok v
    ∧ l = left ++ v :: right
    ∧ Forall (λ x, x <= v) left ∧ Forall (λ x, v <= x) right
    ∧ length left = (length l / 2)%nat
    ∧ (length right ≤ length left ≤ length right + 1)%nat.
Proof.
  intros Hs Hne.
  assert (Hi : (length l / 2 < length l)%nat).
  { destruct l; [done|]. cbn [length]. lia. }
  destruct (lookup_lt_is_Some_2 l _ Hi) as [v Hv].
  exists v, (take (length l / 2) l), (drop (S (length l / 2)) l).
  split_and!.
  - unfold __median, __medianIdx. by rewrite Hv.
  - by rewrite take_drop_middle.
  - apply Forall_lookup. intros j x Hx.
    apply lookup_take_Some in Hx as [Hx Hj].
    eapply sorted_lookup_le; [done| |done..]. lia.
  - apply Forall_lookup. intros j x Hx. rewrite lookup_drop in Hx.
    eapply sorted_lookup_le; [done| |done..]. lia.
  - rewrite length_take_le; lia.
  - rewrite length_drop, length_take_le; lia.
  - rewrite length_drop, length_take_le; lia.
Qed.

Lemma median_splits_sorted_witness :
  ∃ v left right,
    __median (zs [1; 2; 3; 4]%Z) = Ok v
    ∧ zs [1; 2; 3; 4]%Z = left ++ v :: right
    ∧ Forall (λ x, x <= v) left ∧ Forall (λ x, v <= x) right
    ∧ length left = (length (zs [1; 2; 3; 4]%Z) / 2)%nat
    ∧ (length right ≤ length left ≤ length right + 1)%nat.
Proof.
  apply (median_splits_sorted (zs [1; 2; 3; 4]%Z)).
  - repeat constructor; by vm_compute.
  - discriminate.
Defined.

(** X3. Whatever its outcome, [run] changes no list object that existed
    before the call other than its argument, and every reference that was
    valid stays valid. *)
Theorem run_touches_only_argument h p l :
  h !! p = Some l →
  ∃ o h',
    run (Some p) h = (o, h')
    ∧ (∀ q, q ≠ p → (q < length h)%nat → h' !! q = h !! q)
    ∧ (length h ≤ length h')%nat.
Proof.
  intros Hp.
  assert (Hlt : (p < length h)%nat) by by eapply lookup_lt_Some.
  assert (Hfr : ∀ q, q ≠ p → (q < length h)%nat →
                (run (Some p) h).2 !! q = h !! q).
  { intros q Hq Hq'. by eapply run_frame. }
  destruct (list_size_cases l) as [->|[[x ->]|Hn]].
  - rewrite (run_empty h p Hp) in *. by exists (Ok None), h.
  - rewrite (run_single h p x Hp) in *.
    do 2 eexists. split_and!; [done..|].
    rewrite with_outputs_length. lia.
  - destruct (run_many h p l Hp Hn) as (Q1 & Q3 & _ & _ & Hrun).
    cbn zeta in Hrun. rewrite Hrun in *.
    destruct (py_fences Q1 Q3) as [[lo hi]|e];
      do 2 eexists; (split_and!; [done..|]).
    + rewrite final_heap_length by done. lia.
    + rewrite work_heap_length by done. lia.
Qed.

Lemma run_touches_only_argument_witness :
  ∃ o h',
    run (Some 1%nat) [zs [7; 7]%Z; zs [9; 1; 5]%Z] = (o, h')
    ∧ (∀ q, q ≠ 1%nat → (q < length [zs [7; 7]%Z; zs [9; 1; 5]%Z])%nat →
       h' !! q = [zs [7; 7]%Z; zs [9; 1; 5]%Z] !! q)
    ∧ (length [zs [7; 7]%Z; zs [9; 1; 5]%Z] ≤ length h')%nat.
Proof.
  apply (run_touches_only_argument [zs [7; 7]%Z; zs [9; 1; 5]%Z] 1
           (zs [9; 1; 5]%Z)).
  reflexivity.
Defined.

(** X4. In the one-element branch the result's [non_outliers] is the
    caller's own list object: an element the caller appends to its list
    after the call shows up in the result's [non_outliers]. *)
Theorem run_single_result_aliases_input h p x y :
  h !! p = Some [x] →
  ∃ res h' h'',
    run (Some p) h = (Ok (Some res), h')
    ∧ non_outliers res = p
    ∧ append p y h' = (Ok tt, h'')
    ∧ h'' !! non_outliers res = Some [x; y].
Proof.
  intros Hp.
  assert (Hp' : with_outputs h !! p = Some [x])
    by by apply with_outputs_lookup_old.
  do 3 eexists. split_and!.
  - by eapply run_single.
  - done.
  - by apply append_spec.
  - cbn [non_outliers]. apply list_lookup_insert_eq.
    by eapply lookup_lt_Some.
Qed.

Lemma run_single_result_aliases_input_witness :
  ∃ res h' h'',
    run (Some 0%nat) [[inject_Z 5]] = (Ok (Some res), h')
    ∧ non_outliers res = 0%nat
    ∧ append 0 (inject_Z 6) h' = (Ok tt, h'')
    ∧ h'' !! non_outliers res = Some [inject_Z 5; inject_Z 6].
Proof.
  apply (run_single_result_aliases_input [[inject_Z 5]] 0
           (inject_Z 5) (inject_Z 6)).
  reflexivity.
Defined.

(** X5. With at least two elements the two lists of the returned result are
    new objects, different from each other and from the caller's list: an
    element the caller appends to its list after the call changes neither
    of them. *)
Theorem run_outputs_are_fresh h p l y :
  h !! p = Some l → (2 ≤ length l)%nat → fits_float l = true →
  ∃ res h' outs nouts h'',
    returns h p res h' outs nouts
    ∧ outliers res ≠ p ∧ non_outliers res ≠ p
    ∧ outliers res ≠ non_outliers res
    ∧ h !! outliers res = None ∧ h !! non_outliers res = None
    ∧ append p y h' = (Ok tt, h'')
    ∧ h'' !! outliers res = Some outs
    ∧ h'' !! non_outliers res = Some nouts.
Proof.
  intros Hp Hn Hfit.
  assert (Hlt : (p < length h)%nat) by by eapply lookup_lt_Some.
  destruct (run_full h p l Hp Hn Hfit)
    as (Q1 & Q3 & lo & hi & _ & _ & _ & _ & _ & _ & Hret & Hcaller).
  cbn zeta in *. pose proof Hret as (_ & Ho & Hno).
  cbn [outliers non_outliers] in Ho, Hno.
  do 5 eexists. split_and!; [exact Hret|..]; cbn [outliers non_outliers].
  - lia.
  - lia.
  - lia.
  - by apply lookup_ge_None.
  - apply lookup_ge_None. lia.
  - by apply append_spec.
  - rewrite list_lookup_insert_ne by lia. exact Ho.
  - rewrite list_lookup_insert_ne by lia. exact Hno.
Qed.

Lemma run_outputs_are_fresh_witness :
  ∃ res h' outs nouts h'',
    returns [zs [9; 1; 5]%Z] 0 res h' outs nouts
    ∧ outliers res ≠ 0%nat ∧ non_outliers res ≠ 0%nat
    ∧ outliers res ≠ non_outliers res
    ∧ [zs [9; 1; 5]%Z] !! outliers res = None
    ∧ [zs [9; 1; 5]%Z] !! non_outliers res = None
    ∧ append 0 (inject_Z 77) h' = (Ok tt, h'')
    ∧ h'' !! outliers res = Some outs
    ∧ h'' !! non_outliers res = Some nouts.
Proof.
  apply (run_outputs_are_fresh [zs [9; 1; 5]%Z] 0 (zs [9; 1; 5]%Z)
           (inject_Z 77)).
  - reflexivity.
  - simpl. lia.
  - by vm_compute.
Defined.

(** X6. Calling [run] a second time on the same list object, which the
    first call has sorted, returns the same fences and lists with the same
    contents, and leaves the list object as the first call left it. *)
Theorem run_again_same_result h p l :
  h !! p = Some l → l ≠ [] → fits_float l = true →
  ∃ res h' outs nouts res2 h2,
    returns h p res h' outs nouts
    ∧ returns h' p res2 h2 outs nouts
    ∧ lower_fence res2 = lower_fence res
    ∧ upper_fence res2 = upper_fence res
    ∧ h2 !! p = h' !! p.
Proof.
  intros Hp Hne Hfit.
  destruct (list_size_cases l) as [->|[[x ->]|Hn]]; [done|..].
  - assert (Hp' : with_outputs h !! p = Some [x])
      by by apply with_outputs_lookup_old.
    do 6 eexists. split_and!.
    + by apply returns_single.
    + by apply returns_single.
    + done.
    + done.
    + rewrite Hp'. by apply with_outputs_lookup_old.
  - destruct (run_full h p l Hp Hn Hfit)
      as (Q1 & Q3 & lo & hi & H1 & H3 & _ & Ef & _ & _ & Hret & Hc).
    cbn zeta in *.
    assert (Hs : (2 ≤ length (list_sort l))%nat) by by rewrite list_sort_length.
    assert (Hfit2 : fits_float (list_sort l) = true).
    { rewrite (fits_float_many (list_sort l) Q1 Q3 Hs);
        rewrite ?(list_sort_id (list_sort l)) by apply list_sort_sorted;
        [by rewrite Ef|done..]. }
    destruct (run_full _ p _ Hc Hs Hfit2)
      as (Q1' & Q3' & lo' & hi' & H1' & H3' & _ & Ef' & _ & _ & Hret' & Hc').
    cbn zeta in *.
    rewrite (list_sort_id (list_sort l)) in * by apply list_sort_sorted.
    assert (Q1' = Q1) as -> by congruence.
    assert (Q3' = Q3) as -> by congruence.
    rewrite Ef in Ef'. injection Ef' as <- <-.
    do 6 eexists. split_and!; [exact Hret|exact Hret'|done|done|].
    by rewrite Hc, Hc'.
Qed.

Lemma run_again_same_result_witness :
  ∃ res h' outs nouts res2 h2,
    returns [zs [50; 3; 2; 4; 5; 3]%Z] 0 res h' outs nouts
    ∧ returns h' 0 res2 h2 outs nouts
    ∧ lower_fence res2 = lower_fence res
    ∧ upper_fence res2 = upper_fence res
    ∧ h2 !! 0%nat = h' !! 0%nat.
Proof.
  apply (run_again_same_result [zs [50; 3; 2; 4; 5; 3]%Z] 0
           (zs [50; 3; 2; 4; 5; 3]%Z)).
  - reflexivity.
  - discriminate.
  - by vm_compute.
Defined.

(** Elements of a sorted list between two positions that hold inliers are
    inliers: the outliers come from before the first or after the second. *)
Lemma outliers_outside_positions lo hi s i j a b :
  StronglySorted Qle s → (i ≤ j)%nat →
  s !! i = Some a → s !! j = Some b →
  py_lt a lo = false → py_gt b hi = false →
  (length (List.filter (is_outlier lo hi) s) + S j ≤ length s + i)%nat.
Proof.
  intros Hs Hij Hi Hj Hlo Hhi.
  pose proof (lookup_lt_Some _ _ _ Hj) as Hjl.
  rewrite <- (take_drop i s) at 1.
  rewrite <- (take_drop (S j - i) (drop i s)) at 1.
  rewrite !List.filter_app, !length_app.
  assert (List.filter (is_outlier lo hi) (take (S j - i) (drop i s)) = [])
    as ->.
  { apply filter_none, Forall_lookup. intros k x Hx.
    apply lookup_take_Some in Hx as [Hx Hk]. rewrite lookup_drop in Hx.
    assert (a <= x) by (eapply (sorted_lookup_le s i (i + k)); [done|lia|done..]).
    assert (x <= b) by (eapply (sorted_lookup_le s (i + k) j); [done|lia|done..]).
    unfold is_outlier. apply orb_false_iff. split.
    - destruct (py_lt x lo) eqn:E; [|done].
      by rewrite (py_lt_mono a x lo) in Hlo.
    - destruct (py_gt x hi) eqn:E; [|done].
      by rewrite (py_gt_mono x b hi) in Hhi. }
  pose proof (List.filter_length_le (is_outlier lo hi) (take i s)) as L1.
  pose proof (List.filter_length_le (is_outlier lo hi)
                (drop (S j - i) (drop i s))) as L2.
  rewrite length_take_le in L1 by lia.
  rewrite !length_drop in L2. simpl. lia.
Qed.

(** X7. With at least two elements, whenever the returned fences enclose
    the two quartiles ([lower_fence <= Q1] and [Q3 <= upper_fence], as they
    do when the fences carry no rounding error), fewer than half of the
    values are reported as outliers: [2 * len(outliers) + 2 <= len(input)].
    So then a list of two or three values has no outlier. *)
Theorem run_outliers_fewer_than_half h p l :
  h !! p = Some l → (2 ≤ length l)%nat → fits_float l = true →
  ∃ res h' outs nouts Q1 Q3 lo hi,
    returns h p res h' outs nouts
    ∧ quartiles (list_sort l) = Some (Q1, Q3)
    ∧ lower_fence res = Some lo ∧ upper_fence res = Some hi
    ∧ (float_le lo Q1 → le_float Q3 hi →
       (2 * length outs + 2 ≤ length l)%nat
       ∧ ((length l ≤ 3)%nat → outs = [] ∧ nouts = list_sort l)).
Proof.
  intros Hp Hn Hfit.
  destruct (run_full h p l Hp Hn Hfit)
    as (Q1 & Q3 & lo & hi & H1 & H3 & Hle & _ & Nlo & Nhi & Hret & _).
  cbn zeta in *.
  do 4 eexists. exists Q1, Q3, lo, hi.
  split_and!; [exact Hret|by apply quartiles_lookup|done|done|].
  intros Hlo Hhi.
  apply py_lt_false in Hlo; [|done]. apply py_gt_false in Hhi; [|done].
  assert (Hs : (2 ≤ length (list_sort l))%nat) by by rewrite list_sort_length.
  assert (Hidx : (q1_idx (length (list_sort l)) ≤ q3_idx (length (list_sort l)))%nat).
  { destruct (quartile_idx_bounds _ Hs). lia. }
  pose proof (outliers_outside_positions _ _ _ _ _ _ _
                (list_sort_sorted l) Hidx H1 H3 Hlo Hhi) as Hcount.
  assert (Hhalf : (2 * length (List.filter (is_outlier lo hi) (list_sort l))
                   + 2 ≤ length l)%nat).
  { rewrite list_sort_length in Hcount.
    unfold q1_idx, q3_idx, upper_start in Hcount.
    destruct (Nat.eqb_spec (length l mod 2) 0); lia. }
  split; [exact Hhalf|]. intros H3'.
  assert (Hnil : List.filter (is_outlier lo hi) (list_sort l) = []).
  { destruct (List.filter _ _); [done|]. simpl in Hhalf. lia. }
  split; [done|]. by apply no_outlier_all_inlier.
Qed.

Lemma run_outliers_fewer_than_half_witness :
  ∃ res h' outs nouts Q1 Q3 lo hi,
    returns [zs [1000; -1000; 0]%Z] 0 res h' outs nouts
    ∧ quartiles (list_sort (zs [1000; -1000; 0]%Z)) = Some (Q1, Q3)
    ∧ lower_fence res = Some lo ∧ upper_fence res = Some hi
    ∧ (float_le lo Q1 → le_float Q3 hi →
       (2 * length outs + 2 ≤ length (zs [1000; -1000; 0]%Z))%nat
       ∧ ((length (zs [1000; -1000; 0]%Z) ≤ 3)%nat →
          outs = [] ∧ nouts = list_sort (zs [1000; -1000; 0]%Z))).
Proof.
  apply (run_outliers_fewer_than_half [zs [1000; -1000; 0]%Z] 0
           (zs [1000; -1000; 0]%Z)).
  - reflexivity.
  - simpl. lia.
  - by vm_compute.
Defined.

(** A sorted list is its elements below the lower fence, then its
    inliers, then its elements above the upper fence; this needs no
    relation between the two fences. *)
Lemma sorted_three_parts lo hi s :
  StronglySorted Qle s →
  ∃ below above,
    s = below ++ List.filter (is_inlier lo hi) s ++ above
    ∧ List.filter (is_outlier lo hi) s = below ++ above
    ∧ Forall (λ x, lt_float x lo) below
    ∧ Forall (λ x, gt_float x hi) above.
Proof.
  induction 1 as [|x t Hs (below & above & Hparts & Houts & Hb & Ha) Hall].
  { by exists [], []. }
  cbn [List.filter].
  assert (Ei : is_inlier lo hi x = negb (py_lt x lo || py_gt x hi)) by done.
  assert (Eo : is_outlier lo hi x = py_lt x lo || py_gt x hi) by done.
  rewrite Ei, Eo. clear Ei Eo.
  destruct (py_lt x lo) eqn:E1; cbn [orb negb].
  - exists (x :: below), above. cbn [app].
    split_and!; [by rewrite <- Hparts|by rewrite Houts| |done].
    constructor; [by apply py_lt_true|done].
  - assert (Hnb : below = []).
    { destruct below as [|b below']; [done|]. exfalso.
      apply Forall_cons in Hb as [Hb _]. apply py_lt_true in Hb.
      rewrite Forall_forall in Hall.
      assert (Hxb : x <= b).
      { apply Hall. rewrite Hparts. apply list_elem_of_here. }
      by rewrite (py_lt_mono x b lo Hxb Hb) in E1. }
    subst below. cbn [app] in *.
    destruct (py_gt x hi) eqn:E2; cbn [negb].
    + assert (Hno : List.filter (is_inlier lo hi) t = []).
      { apply filter_none. eapply Forall_impl; [exact Hall|].
        intros y Hy. cbn beta in Hy. unfold is_inlier, is_outlier.
        by rewrite (py_gt_mono x y hi Hy E2), orb_true_r. }
      rewrite Hno in *. cbn [app] in *.
      exists [], (x :: above). cbn [app].
      split_and!; [by rewrite <- Hparts|by rewrite Houts|done|].
      constructor; [by apply py_gt_true|done].
    + exists [], above. cbn [app].
      split_and!; [by rewrite <- Hparts|done..].
Qed.

(** X8. With at least two elements, the non-outliers are one contiguous
    block of the sorted data: the sorted list is the low outliers (below
    the lower fence), then the non-outliers, then the high outliers (above
    the upper fence), and [outliers] is the low ones followed by the high
    ones. *)
Theorem run_non_outliers_contiguous h p l :
  h !! p = Some l → (2 ≤ length l)%nat → fits_float l = true →
  ∃ res h' outs nouts lo hi below above,
    returns h p res h' outs nouts
    ∧ lower_fence res = Some lo ∧ upper_fence res = Some hi
    ∧ h' !! p = Some (below ++ nouts ++ above)
    ∧ outs = below ++ above
    ∧ Forall (λ x, lt_float x lo) below ∧ Forall (λ x, gt_float x hi) above.
Proof.
  intros Hp Hn Hfit.
  destruct (run_full h p l Hp Hn Hfit)
    as (Q1 & Q3 & lo & hi & _ & _ & _ & _ & _ & _ & Hret & Hc).
  cbn zeta in *.
  destruct (sorted_three_parts lo hi (list_sort l) (list_sort_sorted l))
    as (below & above & Hparts & Houts & Hb & Ha).
  do 4 eexists. exists lo, hi, below, above.
  split_and!; [exact Hret|done|done| |exact Houts|done|done].
  by rewrite Hc, <- Hparts.
Qed.

Lemma run_non_outliers_contiguous_witness :
  ∃ res h' outs nouts lo hi below above,
    returns [zs [50; 3; -40; 4; 5; 3; 4; 6]%Z] 0 res h' outs nouts
    ∧ lower_fence res = Some lo ∧ upper_fence res = Some hi
    ∧ h' !! 0%nat = Some (below ++ nouts ++ above)
    ∧ outs = below ++ above
    ∧ Forall (λ x, lt_float x lo) below ∧ Forall (λ x, gt_float x hi) above.
Proof.
  apply (run_non_outliers_contiguous [zs [50; 3; -40; 4; 5; 3; 4; 6]%Z] 0
           (zs [50; 3; -40; 4; 5; 3; 4; 6]%Z)).
  - reflexivity.
  - simpl. lia.
  - by vm_compute.
Defined.

(** X9. On exact numbers the result does not depend on the order of the
    input: for two arrangements of the same data (at least two elements)
    [run] overflows on both or on neither, and in the second case it
    returns the same fences and, position by position, equal outliers and
    equal non-outliers. *)
Theorem run_order_irrelevant h p l h2 p2 l2 :
  h !! p = Some l → h2 !! p2 = Some l2 → l ≡ₚ l2 → (2 ≤ length l)%nat →
  fits_float l2 = fits_float l
  ∧ (fits_float l = true →
     ∃ res h' outs nouts res2 h2' outs2 nouts2,
       returns h p res h' outs nouts
       ∧ returns h2 p2 res2 h2' outs2 nouts2
       ∧ lower_fence res2 = lower_fence res
       ∧ upper_fence res2 = upper_fence res
       ∧ Forall2 Qeq outs outs2 ∧ Forall2 Qeq nouts nouts2).
Proof.
  intros Hp Hp2 Hperm Hn.
  assert (Hn2 : (2 ≤ length l2)%nat) by by rewrite <- Hperm.
  pose proof (list_sort_perm_pointwise l l2 Hperm) as Hpw.
  assert (Hs : (2 ≤ length (list_sort l))%nat) by by rewrite list_sort_length.
  destruct (quartile_idx_bounds _ Hs) as (B1 & B2 & B3).
  destruct (lookup_lt_is_Some_2 (list_sort l) (q1_idx (length (list_sort l))))
    as [Q1 H1]; [lia|].
  destruct (lookup_lt_is_Some_2 (list_sort l) (q3_idx (length (list_sort l))))
    as [Q3 H3]; [lia|].
  pose proof (Forall2_length _ _ _ Hpw) as Hlen.
  destruct (lookup_lt_is_Some_2 (list_sort l2) (q1_idx (length (list_sort l2))))
    as [Q1' H1']; [rewrite <- Hlen; lia|].
  destruct (lookup_lt_is_Some_2 (list_sort l2) (q3_idx (length (list_sort l2))))
    as [Q3' H3']; [rewrite <- Hlen; lia|].
  assert (E1 : Q1 == Q1').
  { rewrite <- Hlen in H1'. by eapply Forall2_lookup_lr. }
  assert (E3 : Q3 == Q3').
  { rewrite <- Hlen in H3'. by eapply Forall2_lookup_lr. }
  assert (Hfits : fits_float l2 = fits_float l).
  { rewrite (fits_float_many l Q1 Q3 Hn H1 H3).
    rewrite (fits_float_many l2 Q1' Q3' Hn2 H1' H3').
    by rewrite (py_fences_proper Q1 Q1' Q3 Q3' E1 E3). }
  split; [exact Hfits|]. intros Hfit.
  destruct (run_full h p l Hp Hn Hfit)
    as (Q1a & Q3a & lo & hi & H1a & H3a & _ & Ef & _ & _ & Hret & _).
  rewrite <- Hfits in Hfit.
  destruct (run_full h2 p2 l2 Hp2 Hn2 Hfit)
    as (Q1b & Q3b & lo' & hi' & H1b & H3b & _ & Ef' & _ & _ & Hret' & _).
  cbn zeta in *.
  assert (Q1a = Q1) as -> by congruence.
  assert (Q3a = Q3) as -> by congruence.
  assert (Q1b = Q1') as -> by congruence.
  assert (Q3b = Q3') as -> by congruence.
  rewrite (py_fences_proper Q1 Q1' Q3 Q3' E1 E3), Ef' in Ef.
  injection Ef as <- <-.
  do 8 eexists. split_and!; [exact Hret|exact Hret'|done|done|..].
  - apply filter_pointwise; [done|]. intros x x' Hx.
    by apply is_outlier_proper.
  - apply filter_pointwise; [done|]. intros x x' Hx.
    unfold is_inlier. f_equal. by apply is_outlier_proper.
Qed.

Lemma run_order_irrelevant_witness :
  fits_float [2 # 1; 50 # 1; 4 # 2; 4 # 1] = fits_float [50 # 1; 2 # 1; 4 # 2; 4 # 1]
  ∧ (fits_float [50 # 1; 2 # 1; 4 # 2; 4 # 1] = true →
     ∃ res h' outs nouts res2 h2' outs2 nouts2,
       returns [[50 # 1; 2 # 1; 4 # 2; 4 # 1]] 0 res h' outs nouts
       ∧ returns [[]; [2 # 1; 50 # 1; 4 # 2; 4 # 1]] 1 res2 h2' outs2 nouts2
       ∧ lower_fence res2 = lower_fence res
       ∧ upper_fence res2 = upper_fence res
       ∧ Forall2 Qeq outs outs2 ∧ Forall2 Qeq nouts nouts2).
Proof.
  apply (run_order_irrelevant [[50 # 1; 2 # 1; 4 # 2; 4 # 1]] 0
           [50 # 1; 2 # 1; 4 # 2; 4 # 1]
           [[]; [2 # 1; 50 # 1; 4 # 2; 4 # 1]] 1
           [2 # 1; 50 # 1; 4 # 2; 4 # 1]).
  - reflexivity.
  - reflexivity.
  - apply perm_swap.
  - simpl. lia.
Defined.

(** X11. Values that compare equal are classified alike and keep the
    order they had in the input: for every [v], the elements equal to [v]
    are all in [outliers] or all in [non_outliers], in their input order. *)
Theorem run_keeps_equal_values_together h p l v :
  h !! p = Some l → (2 ≤ length l)%nat → fits_float l = true →
  ∃ res h' outs nouts,
    returns h p res h' outs nouts
    ∧ ((List.filter (Qeq_bool v) outs = List.filter (Qeq_bool v) l
        ∧ List.filter (Qeq_bool v) nouts = [])
       ∨ (List.filter (Qeq_bool v) outs = []
          ∧ List.filter (Qeq_bool v) nouts = List.filter (Qeq_bool v) l)).
Proof.
  intros Hp Hn Hfit.
  destruct (run_full h p l Hp Hn Hfit)
    as (Q1 & Q3 & lo & hi & _ & _ & _ & _ & _ & _ & Hret & _).
  cbn zeta in *.
  do 4 eexists. split; [exact Hret|].
  rewrite <- (list_sort_stable v l).
  destruct (is_outlier lo hi v) eqn:Ev.
  all: assert (Hsame : ∀ x, Qeq_bool v x = true →
                       is_outlier lo hi x = is_outlier lo hi v)
    by (intros x Hx; apply Qeq_bool_iff in Hx;
        apply is_outlier_proper; by symmetry).
  all: rewrite Ev in Hsame.
  - left. split.
    + apply filter_filter_all. intros x Hx. by apply Hsame.
    + apply filter_filter_none. intros x Hx.
      unfold is_inlier. by rewrite (Hsame x Hx).
  - right. split.
    + apply filter_filter_none. intros x Hx. by apply Hsame.
    + apply filter_filter_all. intros x Hx.
      unfold is_inlier. by rewrite (Hsame x Hx).
Qed.

Lemma run_keeps_equal_values_together_witness :
  ∃ res h' outs nouts,
    returns [[4 # 2; 9 # 1; 2 # 1; 6 # 3; 50 # 1]] 0 res h' outs nouts
    ∧ ((List.filter (Qeq_bool (2 # 1)) outs
        = List.filter (Qeq_bool (2 # 1)) [4 # 2; 9 # 1; 2 # 1; 6 # 3; 50 # 1]
        ∧ List.filter (Qeq_bool (2 # 1)) nouts = [])
       ∨ (List.filter (Qeq_bool (2 # 1)) outs = []
          ∧ List.filter (Qeq_bool (2 # 1)) nouts
            = List.filter (Qeq_bool (2 # 1))
                [4 # 2; 9 # 1; 2 # 1; 6 # 3; 50 # 1])).
Proof.
  apply (run_keeps_equal_values_together
           [[4 # 2; 9 # 1; 2 # 1; 6 # 3; 50 # 1]] 0
           [4 # 2; 9 # 1; 2 # 1; 6 # 3; 50 # 1] (2 # 1)).
  - reflexivity.
  - simpl. lia.
  - by vm_compute.
Defined.

(** X12. When the caller's list (of at least two elements) is already in
    ascending order, [run] leaves it exactly as it was, and the two output
    lists are its elements outside and inside the fences, in its order. *)
Theorem run_sorted_input_unchanged h p l :
  h !! p = Some l → (2 ≤ length l)%nat → StronglySorted Qle l →
  fits_float l = true →
  ∃ res h' outs nouts lo hi,
    returns h p res h' outs nouts
    ∧ lower_fence res = Some lo ∧ upper_fence res = Some hi
    ∧ h' !! p = Some l
    ∧ outs = List.filter (is_outlier lo hi) l
    ∧ nouts = List.filter (is_inlier lo hi) l.
Proof.
  intros Hp Hn Hs Hfit.
  destruct (run_full h p l Hp Hn Hfit)
    as (Q1 & Q3 & lo & hi & _ & _ & _ & _ & _ & _ & Hret & Hc).
  cbn zeta in *. rewrite (list_sort_id l Hs) in *.
  do 6 eexists. split_and!; [exact Hret|done..].
Qed.

Lemma run_sorted_input_unchanged_witness :
  ∃ res h' outs nouts lo hi,
    returns [zs [-30; 1; 2; 2; 3; 40]%Z] 0 res h' outs nouts
    ∧ lower_fence res = Some lo ∧ upper_fence res = Some hi
    ∧ h' !! 0%nat = Some (zs [-30; 1; 2; 2; 3; 40]%Z)
    ∧ outs = List.filter (is_outlier lo hi) (zs [-30; 1; 2; 2; 3; 40]%Z)
    ∧ nouts = List.filter (is_inlier lo hi) (zs [-30; 1; 2; 2; 3; 40]%Z).
Proof.
  apply (run_sorted_input_unchanged [zs [-30; 1; 2; 2; 3; 40]%Z] 0
           (zs [-30; 1; 2; 2; 3; 40]%Z)).
  - reflexivity.
  - simpl. lia.
  - repeat constructor; by vm_compute.
  - by vm_compute.
Defined.
